(** * Realtime assistant overlay: annotation history, playback scheduling,
      tool calls, captions and teardown

    A shallow embedding of [App.tsx] (the session controller with its
    annotation history, playback scheduler, tool-call handler and caption
    buffers) and of the pointer handlers of [components/JarvisHUD.tsx].

    Conventions of the embedding.
    - A JavaScript object is a finite map from property names to values
      ([gmap string Value]); object spread is map union in which the later
      operand wins.
    - A [useRef] cell and a [useState] cell are both record fields; the
      source keeps them as mirrors and so does the model.
    - Indices and cursors are integers ([Z]), because the history cursor
      takes the value -1.
    - Playback time is counted in sample frames of the output context, an
      integer: the context clock advances by whole frames and a decoded
      buffer lasts a whole number of frames.
    - Everything the platform answers (clock readings, decoding, whether
      [stop()] raises, device acquisition) is read from an environment
      record [Env], so every handler is a function that can be evaluated.
    - Numbers are rationals. Pointer positions and the volume pulse are
      computed exactly: what is proved of them is structure and order,
      which rounding does not change. The screen-capture tick floors what
      it computes, which makes rounding visible in its result, so there
      every quotient and product is rounded to the nearest double
      ([double]). *)

From Stdlib Require Import ZArith QArith Qabs Qround Qminmax Qpower Lqa List Bool
  Ascii Lia.
From stdpp Require Import base option list strings gmap pretty.

Local Open Scope Z_scope.

(** ** Values and drawings *)

Record Point := mkPoint { px : Q; py : Q }.

Inductive Value :=
| VNull
| VBool (b : bool)
| VNum (n : Q)
| VStr (s : string)
| VPoints (ps : list Point).

(** [export type ToolType = 'path' | 'rect' | 'circle' | 'arrow' | 'text'] *)
Inductive ToolType := path | rect | circle | arrow | text.

(** A [Drawing] at run time is whatever object was put in the list: the
    tool arguments are typed [any], so no field is guaranteed. *)
Abbreviation Obj := (gmap string Value).
Abbreviation Drawing := (gmap string Value).

(** A cell typed [Drawing[]] that was assigned from an array read holds
    [undefined] when the read was out of range. *)
Abbreviation DrawingList := (option (list Drawing)).

(** ** JavaScript array primitives *)

(** [arr.slice(start, end)]: negative arguments count from the end, both are
    clamped to the array. *)
Definition js_slice {A} (l : list A) (start end_ : Z) : list A :=
  let len := Z.of_nat (length l) in
  let rel x := if x <? 0 then Z.max (len + x) 0 else Z.min x len in
  let k := rel start in
  let final := rel end_ in
  take (Z.to_nat (final - k)) (drop (Z.to_nat k) l).

(** [arr[i]]: [undefined] outside the array. *)
Definition js_index {A} (l : list A) (i : Z) : option A :=
  if i <? 0 then None else l !! Z.to_nat i.

(** [arr.shift()] as a statement: drops the first element. *)
Definition js_shift {A} (l : list A) : list A := tail l.

(** ** Annotation engine: drawing list and bounded history *)

Record Annotations := mkAnnotations {
  drawings : DrawingList;              (* useState<Drawing[]>([]) *)
  history : list (list Drawing);       (* useState<Drawing[][]>([]) *)
  historyIndex : Z;                    (* useState(-1) *)
  drawingsRef : DrawingList;
  historyRef : list (list Drawing);
  historyIndexRef : Z
}.

Definition initAnnotations : Annotations :=
  {| drawings := Some []; history := []; historyIndex := -1;
     drawingsRef := Some []; historyRef := []; historyIndexRef := -1 |}.

Definition updateDrawings (newDrawings : list Drawing) (a : Annotations)
  : Annotations :=
  let newHistory := js_slice (historyRef a) 0 (historyIndexRef a + 1) in
  let newHistory := newHistory ++ [newDrawings] in
  let newHistory :=
    if Z.of_nat (length newHistory) >? 50 then js_shift newHistory
    else newHistory in
  {| drawings := Some newDrawings;
     history := newHistory;
     historyIndex := Z.of_nat (length newHistory) - 1;
     drawingsRef := Some newDrawings;
     historyRef := newHistory;
     historyIndexRef := Z.of_nat (length newHistory) - 1 |}.

Definition undo (a : Annotations) : Annotations :=
  if historyIndexRef a >? 0 then
    let i := historyIndexRef a - 1 in
    let prev := js_index (historyRef a) i in
    {| drawings := prev; history := history a; historyIndex := i;
       drawingsRef := prev; historyRef := historyRef a;
       historyIndexRef := i |}
  else if historyIndexRef a =? 0 then
    {| drawings := Some []; history := history a; historyIndex := -1;
       drawingsRef := Some []; historyRef := historyRef a;
       historyIndexRef := -1 |}
  else a.

Definition redo (a : Annotations) : Annotations :=
  if historyIndexRef a <? Z.of_nat (length (historyRef a)) - 1 then
    let i := historyIndexRef a + 1 in
    let next := js_index (historyRef a) i in
    {| drawings := next; history := history a; historyIndex := i;
       drawingsRef := next; historyRef := historyRef a;
       historyIndexRef := i |}
  else a.

(** The history invariant of the data model. *)
Definition history_ok (a : Annotations) : Prop :=
  Z.of_nat (length (historyRef a)) <= 50 /\
  -1 <= historyIndexRef a <= Z.of_nat (length (historyRef a)) - 1.

(** The state after a whole sequence of [updateDrawings] calls. *)
Definition applyCalls (ds : list (list Drawing)) (a : Annotations)
  : Annotations :=
  foldl (fun a d => updateDrawings d a) a ds.

(** ** Session, audio and caption state *)

Abbreviation Track := nat.       (* a MediaStreamTrack, by identity *)
Abbreviation Node := nat.        (* an AudioBufferSourceNode, by identity *)
Abbreviation Handle := nat.      (* audio contexts, analysers, session promises *)

Record MediaStream := mkStream { getTracks : list Track }.

Record Session := mkSession {
  isActive : bool;
  isConnecting : bool;
  error : option string;
  voiceData : list Z;
  screenStream : option MediaStream;
  micStreamRef : option MediaStream;
  frameIntervalRef : option Z;
  sessionPromiseRef : option Handle
}.

Record Audio := mkAudio {
  inputAudioCtxRef : option Handle;
  outputAudioCtxRef : option Handle;
  outputAnalyserRef : option Handle;
  nextStartTimeRef : Z;
  sourcesRef : list Node             (* a Set, in insertion order *)
}.

Record Transcript := mkTranscript { user : string; ai : string }.

Record Captions := mkCaptions {
  transcription : Transcript;
  transcriptionRef : Transcript
}.

(** Local state of the HUD component. *)
Record Hud := mkHud {
  isDrawing : bool;
  startPoint : option Point;
  currentPoints : list Point;
  previewDrawing : option Drawing
}.

(** What the program asks of the platform, in program order. *)
Inductive Effect :=
| ClearInterval (id : Z)
| TrackStop (t : Track)
| SourceStop (n : Node)
| SourceStart (n : Node) (when : Z)
| ContextClose (c : Handle)
| SessionClose (p : Handle)
| SendToolResponse (id name result : string).

Record World := mkWorld {
  ann : Annotations;
  sess : Session;
  audio : Audio;
  cap : Captions;
  hud : Hud;
  selectedTool : ToolType;
  timers : list Z;          (* due times of pending [setTimeout] callbacks *)
  trace : list Effect;
  reads : nat               (* how many times [Date.now()] was read *)
}.

Definition initWorld : World :=
  {| ann := initAnnotations;
     sess := {| isActive := false; isConnecting := false; error := None;
                voiceData := []; screenStream := None; micStreamRef := None;
                frameIntervalRef := None; sessionPromiseRef := None |};
     audio := {| inputAudioCtxRef := None; outputAudioCtxRef := None;
                 outputAnalyserRef := None; nextStartTimeRef := 0;
                 sourcesRef := [] |};
     cap := {| transcription := mkTranscript "" "";
               transcriptionRef := mkTranscript "" "" |};
     hud := {| isDrawing := false; startPoint := None; currentPoints := [];
               previewDrawing := None |};
     selectedTool := path;
     timers := [];
     trace := [];
     reads := 0 |}.

Definition with_ann (f : Annotations -> Annotations) (w : World) : World :=
  mkWorld (f (ann w)) (sess w) (audio w) (cap w) (hud w) (selectedTool w)
          (timers w) (trace w) (reads w).
Definition with_sess (f : Session -> Session) (w : World) : World :=
  mkWorld (ann w) (f (sess w)) (audio w) (cap w) (hud w) (selectedTool w)
          (timers w) (trace w) (reads w).
Definition with_audio (f : Audio -> Audio) (w : World) : World :=
  mkWorld (ann w) (sess w) (f (audio w)) (cap w) (hud w) (selectedTool w)
          (timers w) (trace w) (reads w).
Definition with_cap (f : Captions -> Captions) (w : World) : World :=
  mkWorld (ann w) (sess w) (audio w) (f (cap w)) (hud w) (selectedTool w)
          (timers w) (trace w) (reads w).
Definition with_hud (f : Hud -> Hud) (w : World) : World :=
  mkWorld (ann w) (sess w) (audio w) (cap w) (f (hud w)) (selectedTool w)
          (timers w) (trace w) (reads w).
Definition with_timers (f : list Z -> list Z) (w : World) : World :=
  mkWorld (ann w) (sess w) (audio w) (cap w) (hud w) (selectedTool w)
          (f (timers w)) (trace w) (reads w).
Definition with_trace (f : list Effect -> list Effect) (w : World) : World :=
  mkWorld (ann w) (sess w) (audio w) (cap w) (hud w) (selectedTool w)
          (timers w) (f (trace w)) (reads w).
Definition with_reads (f : nat -> nat) (w : World) : World :=
  mkWorld (ann w) (sess w) (audio w) (cap w) (hud w) (selectedTool w)
          (timers w) (trace w) (f (reads w)).

(** Applied to an explicit world, an update is carried out by [simpl]. *)
Arguments with_ann f !w /.
Arguments with_sess f !w /.
Arguments with_audio f !w /.
Arguments with_cap f !w /.
Arguments with_hud f !w /.
Arguments with_timers f !w /.
Arguments with_trace f !w /.
Arguments with_reads f !w /.

(** ** The platform *)

Record Env := mkEnv {
  (* outputAudioCtx.currentTime when the handler reads it, in frames *)
  currentTime : Z;
  (* decodeAudioData(decode(data), ...): the duration of the decoded buffer,
     or nothing when decoding raises *)
  decodeAudioData : string -> option Z;
  (* the object createBufferSource() returns *)
  createBufferSource : Node;
  (* whether source.stop() raises on this node *)
  stop_throws : Node -> bool;
  (* the value of the k-th Date.now() read *)
  Date_now : nat -> N;
  (* the event loop's time when the handler runs, in milliseconds *)
  timeNow : Z;
  Math_sqrt : Q -> Q;
  innerWidth : Q;
  innerHeight : Q;
  (* device acquisition and construction in startJarvis *)
  getDisplayMedia : option MediaStream;
  getUserMedia : option MediaStream;
  err_message : string;
  newInputCtx : Handle;
  newOutputCtx : Handle;
  createAnalyser : Handle;
  connect : Handle;
  setInterval : Z
}.

(** ** Handlers as computations

    A handler reads the platform, updates the world and either completes or
    raises. *)

Inductive Outcome (A : Type) :=
| Return (a : A)
| Throw.
Arguments Return {A} a.
Arguments Throw {A}.

Definition Eff (A : Type) : Type := Env -> World -> Outcome A * World.

#[global] Instance Eff_ret : MRet Eff := fun A a _ w => (Return a, w).
#[global] Instance Eff_bind : MBind Eff := fun A B f c E w =>
  match c E w with
  | (Return a, w') => f a E w'
  | (Throw, w') => (Throw, w')
  end.

Definition throw {A} : Eff A := fun _ w => (Throw, w).
Definition ask : Eff Env := fun E w => (Return E, w).
Definition get : Eff World := fun _ w => (Return w, w).
Definition modify (f : World -> World) : Eff unit := fun _ w => (Return tt, f w).
Definition emit (e : Effect) : Eff unit := modify (with_trace (fun t => t ++ [e])).

(** [try { c } catch (e) { h }] *)
Definition try_catch (c h : Eff unit) : Eff unit := fun E w =>
  match c E w with
  | (Return a, w') => (Return a, w')
  | (Throw, w') => h E w'
  end.

Definition skip : Eff unit := mret tt.

Definition when (b : bool) (c : Eff unit) : Eff unit := if b then c else skip.

(** [if (x) f(x)] on a cell that holds a value or null. *)
Definition when_some {A} (x : option A) (f : A -> Eff unit) : Eff unit :=
  match x with
  | Some a => f a
  | None => skip
  end.

(** [xs.forEach(f)] and [for (const x of xs) f(x)]: a raise leaves the loop. *)
Fixpoint forEach {A} (f : A -> Eff unit) (xs : list A) : Eff unit :=
  match xs with
  | [] => skip
  | x :: xs' => f x ;; forEach f xs'
  end.

(** [xs.map((x, i) => f(x, i))], the index starting at [i]. *)
Fixpoint mapI {A B} (f : A -> nat -> Eff B) (i : nat) (xs : list A)
  : Eff (list B) :=
  match xs with
  | [] => mret []
  | x :: xs' => y ← f x i; ys ← mapI f (S i) xs'; mret (y :: ys)
  end.

(** [Date.now()] *)
Definition DateNow : Eff N := fun E w =>
  (Return (Date_now E (reads w)), with_reads S w).

(** The world a handler leaves behind (a rejected async handler is not
    observed by anything). *)
Definition exec {A} (c : Eff A) (E : Env) (w : World) : World := snd (c E w).

(** ** Session controller: teardown and start *)

(** [if (x)] on a number-or-null cell: null and 0 are falsy. *)
Definition truthy_num (x : option Z) : option Z :=
  match x with
  | Some n => if n =? 0 then None else Some n
  | None => None
  end.

(** [source.stop()]: the request is made, and may raise. *)
Definition source_stop (n : Node) : Eff unit :=
  emit (SourceStop n) ;;
  E ← ask;
  if stop_throws E n then throw else skip.

(** [sourcesRef.current.forEach(s => { try { s.stop(); } catch (e) {} })] *)
Definition stop_all_sources : Eff unit :=
  w ← get;
  forEach (fun s => try_catch (source_stop s) skip) (sourcesRef (audio w)).

Definition cleanup : Eff unit :=
  modify (with_sess (fun s =>
    mkSession false false (error s) [] None
              (micStreamRef s) (frameIntervalRef s) (sessionPromiseRef s))) ;;
  modify (with_ann (fun _ =>
    {| drawings := Some []; history := []; historyIndex := -1;
       drawingsRef := Some []; historyRef := []; historyIndexRef := -1 |})) ;;
  w ← get;
  when_some (truthy_num (frameIntervalRef (sess w)))
    (fun id => emit (ClearInterval id)) ;;
  when_some (micStreamRef (sess w))
    (fun mic => forEach (fun t => emit (TrackStop t)) (getTracks mic)) ;;
  stop_all_sources ;;
  modify (with_audio (fun a =>
    mkAudio (inputAudioCtxRef a) (outputAudioCtxRef a) (outputAnalyserRef a)
            (nextStartTimeRef a) [])) ;;
  when_some (inputAudioCtxRef (audio w)) (fun c => emit (ContextClose c)) ;;
  when_some (outputAudioCtxRef (audio w)) (fun c => emit (ContextClose c)) ;;
  modify (with_audio (fun a => mkAudio None None None 0 (sourcesRef a))) ;;
  when_some (sessionPromiseRef (sess w)) (fun p => emit (SessionClose p)) ;;
  modify (with_sess (fun s =>
    mkSession (isActive s) (isConnecting s) (error s) (voiceData s)
              (screenStream s) (micStreamRef s) (frameIntervalRef s) None)).

(** [err.message || 'System uplink failure.'] *)
Definition message_or (m dflt : string) : string :=
  if String.eqb m "" then dflt else m.

(** [await navigator.mediaDevices.get...Media(...)] *)
Definition acquire (r : Env -> option MediaStream) : Eff MediaStream :=
  E ← ask;
  match r E with
  | Some s => mret s
  | None => throw
  end.

Definition startJarvis : Eff unit :=
  try_catch
    (modify (with_sess (fun s =>
       mkSession (isActive s) true None (voiceData s) (screenStream s)
                 (micStreamRef s) (frameIntervalRef s) (sessionPromiseRef s))) ;;
     stream ← acquire getDisplayMedia;
     micStream ← acquire getUserMedia;
     E ← ask;
     modify (with_sess (fun s =>
       mkSession (isActive s) (isConnecting s) (error s) (voiceData s)
                 (Some stream) (Some micStream) (frameIntervalRef s)
                 (sessionPromiseRef s))) ;;
     modify (with_audio (fun a =>
       mkAudio (Some (newInputCtx E)) (Some (newOutputCtx E))
               (Some (createAnalyser E)) (nextStartTimeRef a) (sourcesRef a))) ;;
     modify (with_sess (fun s =>
       mkSession (isActive s) (isConnecting s) (error s) (voiceData s)
                 (screenStream s) (micStreamRef s) (frameIntervalRef s)
                 (Some (connect E)))))
    (E ← ask;
     modify (with_sess (fun s =>
       mkSession (isActive s) false
                 (Some (message_or (err_message E) "System uplink failure."))
                 (voiceData s) (screenStream s) (micStreamRef s)
                 (frameIntervalRef s) (sessionPromiseRef s))) ;;
     cleanup).

(** The [onopen] callback: the capture nodes and the canvas it builds are
    local to the callback; what the rest of the program can see is the two
    flags and the interval handle. *)
Definition onopen : Eff unit :=
  E ← ask;
  modify (with_sess (fun s =>
    mkSession true false (error s) (voiceData s) (screenStream s)
              (micStreamRef s) (Some (setInterval E)) (sessionPromiseRef s))).

Definition onerror : Eff unit :=
  E ← ask;
  modify (with_sess (fun s =>
    mkSession (isActive s) (isConnecting s)
              (Some ("J.A.R.V.I.S. Uplink Error: " +:+ err_message E +:+ "."))
              (voiceData s) (screenStream s) (micStreamRef s)
              (frameIntervalRef s) (sessionPromiseRef s))) ;;
  cleanup.

Definition onclose : Eff unit := cleanup.

(** ** The message handler *)

Record FunctionCall := mkFunctionCall {
  fc_id : string;
  fc_name : string;
  (* fc.args.marks, nothing when it is not an array *)
  fc_marks : option (list Obj)
}.

Record Message := mkMessage {
  (* serverContent?.modelTurn?.parts[0]?.inlineData?.data *)
  audioData : option string;
  (* toolCall.functionCalls *)
  toolCall : option (list FunctionCall);
  (* serverContent?.inputTranscription, with its .text *)
  inputTranscription : option (option string);
  outputTranscription : option (option string);
  turnComplete : bool;
  interrupted : bool
}.

(** [set.add(x)] *)
Definition set_add (x : Node) (s : list Node) : list Node :=
  if bool_decide (x ∈ s) then s else s ++ [x].

(** [source.onended = () => sourcesRef.current.delete(source)] *)
Definition onended (n : Node) : Eff unit :=
  modify (with_audio (fun a =>
    mkAudio (inputAudioCtxRef a) (outputAudioCtxRef a) (outputAnalyserRef a)
            (nextStartTimeRef a)
            (filter (fun x => x ≠ n) (sourcesRef a)))).

Definition set_nextStartTime (t : Z) : Eff unit :=
  modify (with_audio (fun a =>
    mkAudio (inputAudioCtxRef a) (outputAudioCtxRef a) (outputAnalyserRef a)
            t (sourcesRef a))).

(** Audio output: lines 256-267. *)
Definition audio_output (message : Message) : Eff unit :=
  w ← get;
  match audioData message, outputAudioCtxRef (audio w),
        outputAnalyserRef (audio w) with
  | Some data, Some _, Some _ =>
      if String.eqb data "" then skip else
      E ← ask;
      set_nextStartTime (Z.max (nextStartTimeRef (audio w)) (currentTime E)) ;;
      duration ← match decodeAudioData E data with
                 | Some d => mret d
                 | None => throw
                 end;
      let source := createBufferSource E in
      w1 ← get;
      emit (SourceStart source (nextStartTimeRef (audio w1))) ;;
      set_nextStartTime (nextStartTimeRef (audio w1) + duration) ;;
      modify (with_audio (fun a =>
        mkAudio (inputAudioCtxRef a) (outputAudioCtxRef a)
                (outputAnalyserRef a) (nextStartTimeRef a)
                (set_add source (sourcesRef a))))
  | _, _, _ => skip
  end.

(** [`ai-${Date.now()}-${i}`] *)
Definition ai_id (t : N) (i : nat) : string :=
  "ai-" +:+ pretty t +:+ "-" +:+ pretty i.

(** [{ id: ..., ...m }]: the properties of [m] are written after [id]. *)
Definition new_mark (m : Obj) (i : nat) : Eff Drawing :=
  t ← DateNow;
  mret (m ∪ {[ "id" := VStr (ai_id t i) ]}).

Definition do_updateDrawings (newDrawings : list Drawing) : Eff unit :=
  modify (with_ann (updateDrawings newDrawings)).

(** Tool handling: lines 270-297. *)
Definition handle_call (fc : FunctionCall) : Eff unit :=
  if String.eqb (fc_name fc) "mark_screen" then
    marks ← match fc_marks fc with
            | Some ms => mret ms
            | None => throw
            end;
    newMarks ← mapI new_mark 0 marks;
    w ← get;
    match drawingsRef (ann w) with
    | Some cur => do_updateDrawings (cur ++ newMarks)
    | None => throw
    end ;;
    emit (SendToolResponse (fc_id fc) (fc_name fc) "HUD marks deployed, Sir.")
  else if String.eqb (fc_name fc) "clear_marks" then
    do_updateDrawings [] ;;
    emit (SendToolResponse (fc_id fc) (fc_name fc) "HUD clear.")
  else skip.

Definition tool_handling (message : Message) : Eff unit :=
  match toolCall message with
  | Some calls => forEach handle_call calls
  | None => skip
  end.

(** [s += text]: an absent text is appended as the word it prints as. *)
Definition js_append (s : string) (txt : option string) : string :=
  s +:+ default "undefined" txt.

Definition clear_delay : Z := 6000.

(** Transcription: lines 299-313. *)
Definition transcription_handling (message : Message) : Eff unit :=
  match inputTranscription message with
  | Some txt =>
      modify (with_cap (fun c =>
        let r := mkTranscript (js_append (user (transcriptionRef c)) txt)
                              (ai (transcriptionRef c)) in
        mkCaptions r r))
  | None => skip
  end ;;
  match outputTranscription message with
  | Some txt =>
      modify (with_cap (fun c =>
        let r := mkTranscript (user (transcriptionRef c))
                              (js_append (ai (transcriptionRef c)) txt) in
        mkCaptions r r))
  | None => skip
  end ;;
  when (turnComplete message)
    (E ← ask; modify (with_timers (fun ts => ts ++ [timeNow E + clear_delay]))).

(** The callback given to [setTimeout]. *)
Definition clear_callback : Eff unit :=
  modify (with_cap (fun _ => mkCaptions (mkTranscript "" "") (mkTranscript "" ""))).

(** Interruption: lines 316-320. *)
Definition interruption (message : Message) : Eff unit :=
  when (interrupted message)
    (stop_all_sources ;;
     modify (with_audio (fun a =>
       mkAudio (inputAudioCtxRef a) (outputAudioCtxRef a)
               (outputAnalyserRef a) (nextStartTimeRef a) [])) ;;
     set_nextStartTime 0).

Definition onmessage (message : Message) : Eff unit :=
  audio_output message ;;
  tool_handling message ;;
  transcription_handling message ;;
  interruption message.

(** The event loop runs one pending timeout: the first one that is due. *)
Fixpoint take_due (now : Z) (ts : list Z) : option (list Z) :=
  match ts with
  | [] => None
  | t :: ts' =>
      if t <=? now then Some ts'
      else match take_due now ts' with
           | Some r => Some (t :: r)
           | None => None
           end
  end.

Definition run_timeout : Eff unit :=
  E ← ask;
  w ← get;
  match take_due (timeNow E) (timers w) with
  | Some rest => modify (with_timers (fun _ => rest)) ;; clear_callback
  | None => skip
  end.

(** ** Pointer handlers of the HUD *)

Record MouseEvent := mkMouseEvent { clientX : Q; clientY : Q }.

Definition getNormalizedPos (e : MouseEvent) : Eff Point :=
  E ← ask;
  mret (mkPoint (clientX e / innerWidth E * 1000)%Q
                (clientY e / innerHeight E * 1000)%Q).

(** An object literal. *)
Definition obj (fields : list (string * Value)) : Obj := list_to_map fields.

Definition handleMouseDown (e : MouseEvent) : Eff unit :=
  w ← get;
  if negb (isActive (sess w)) then skip else
  pos ← getNormalizedPos e;
  modify (with_hud (fun h => mkHud true (Some pos) [pos] (previewDrawing h))).

Definition preview_color : Value := VStr "rgba(34, 211, 238, 0.6)".

Definition make_preview (E : Env) (tool : ToolType) (sp pos : Point)
    (currentPoints : list Point) : Drawing :=
  let width := (px pos - px sp)%Q in
  let height := (py pos - py sp)%Q in
  match tool with
  | path =>
      obj [("id", VStr "preview"); ("type", VStr "path");
           ("x", VNum (px sp)); ("y", VNum (py sp));
           ("points", VPoints (currentPoints ++ [pos]));
           ("color", preview_color)]
  | rect =>
      obj [("id", VStr "preview"); ("type", VStr "rect");
           ("x", VNum (px sp + width / 2)%Q);
           ("y", VNum (py sp + height / 2)%Q);
           ("width", VNum (Qabs width)); ("height", VNum (Qabs height));
           ("color", preview_color)]
  | circle =>
      let radius := Math_sqrt E (width * width + height * height)%Q in
      obj [("id", VStr "preview"); ("type", VStr "circle");
           ("x", VNum (px sp)); ("y", VNum (py sp));
           ("width", VNum radius); ("color", preview_color)]
  | arrow =>
      obj [("id", VStr "preview"); ("type", VStr "arrow");
           ("x", VNum (px sp)); ("y", VNum (py sp));
           ("points", VPoints [sp; pos]); ("color", preview_color)]
  | text =>
      obj [("id", VStr "preview"); ("type", VStr "text");
           ("x", VNum (px pos)); ("y", VNum (py pos));
           ("label", VStr "USER MARK");
           ("color", VStr "rgba(34, 211, 238, 0.9)")]
  end.

Definition handleMouseMove (e : MouseEvent) : Eff unit :=
  w ← get;
  match isDrawing (hud w), startPoint (hud w) with
  | true, Some sp =>
      pos ← getNormalizedPos e;
      E ← ask;
      let preview :=
        make_preview E (selectedTool w) sp pos (currentPoints (hud w)) in
      modify (with_hud (fun h =>
        mkHud (isDrawing h) (startPoint h) (currentPoints h ++ [pos])
              (Some preview)))
  | _, _ => skip
  end.

(** [`user-${Date.now()}`] *)
Definition user_id (t : N) : string := "user-" +:+ pretty t.

Definition handleMouseUp : Eff unit :=
  w ← get;
  match isDrawing (hud w), previewDrawing (hud w) with
  | true, Some preview =>
      t ← DateNow;
      let finalDrawing :=
        <["color" := VStr "#22d3ee"]> (<["id" := VStr (user_id t)]> preview) in
      match drawings (ann w) with
      | Some ds => do_updateDrawings (ds ++ [finalDrawing])
      | None => throw
      end ;;
      modify (with_hud (fun _ => mkHud false None [] None))
  | _, _ =>
      modify (with_hud (fun h =>
        mkHud false None (currentPoints h) (previewDrawing h)))
  end.

(** ** Events *)

Inductive Event :=
| EvActivate                       (* onActivate={startJarvis} *)
| EvOpen
| EvMessage (m : Message)
| EvError
| EvClose
| EvTrackEnded                     (* the screen track's onended *)
| EvDeactivate                     (* onDeactivate={cleanup} *)
| EvUndo
| EvRedo
| EvSelectTool (t : ToolType)
| EvMouseDown (e : MouseEvent)
| EvMouseMove (e : MouseEvent)
| EvMouseUp
| EvSourceEnded (n : Node)
| EvTimeout.

Definition handler (ev : Event) : Eff unit :=
  match ev with
  | EvActivate => startJarvis
  | EvOpen => onopen
  | EvMessage m => onmessage m
  | EvError => onerror
  | EvClose => onclose
  | EvTrackEnded => cleanup
  | EvDeactivate => cleanup
  | EvUndo => modify (with_ann undo)
  | EvRedo => modify (with_ann redo)
  | EvSelectTool t => modify (fun w =>
      mkWorld (ann w) (sess w) (audio w) (cap w) (hud w) t
              (timers w) (trace w) (reads w))
  | EvMouseDown e => handleMouseDown e
  | EvMouseMove e => handleMouseMove e
  | EvMouseUp => handleMouseUp
  | EvSourceEnded n => onended n
  | EvTimeout => run_timeout
  end.

Definition step (w : World) (ev : Env * Event) : World :=
  exec (handler ev.2) ev.1 w.

Definition run (evs : list (Env * Event)) (w : World) : World :=
  foldl step w evs.

(** The effects a handler adds to the trace. *)
Definition effects_of {A} (c : Eff A) (E : Env) (w : World) : list Effect :=
  drop (length (trace w)) (trace (exec c E w)).

(** A platform for examples: the clock reads 1000 at every read, decoding
    gives a buffer of as many frames as the payload has characters, nothing
    raises, both devices are granted with one track each. *)
Definition demoEnv : Env :=
  {| currentTime := 0;
     decodeAudioData := fun s => Some (Z.of_nat (String.length s));
     createBufferSource := 0%nat;
     stop_throws := fun _ => false;
     Date_now := fun _ => 1000%N;
     timeNow := 0;
     Math_sqrt := fun q => q;
     innerWidth := 1000%Q;
     innerHeight := 1000%Q;
     getDisplayMedia := Some (mkStream [1%nat]);
     getUserMedia := Some (mkStream [2%nat]);
     err_message := "";
     newInputCtx := 10%nat;
     newOutputCtx := 11%nat;
     createAnalyser := 12%nat;
     connect := 13%nat;
     setInterval := 7 |}.

(** The same platform at another event-loop time. *)
Definition at_time (t : Z) (E : Env) : Env :=
  mkEnv (currentTime E) (decodeAudioData E) (createBufferSource E)
        (stop_throws E) (Date_now E) t (Math_sqrt E) (innerWidth E)
        (innerHeight E) (getDisplayMedia E) (getUserMedia E) (err_message E)
        (newInputCtx E) (newOutputCtx E) (createAnalyser E) (connect E)
        (setInterval E).

Definition circle_mark : Obj :=
  obj [("type", VStr "circle"); ("x", VNum 500); ("y", VNum 500);
       ("width", VNum 50)].

(** ** Specification vocabulary

    Definitions used to state the properties: what a handler is expected to
    leave behind, written as functions of the world before it runs. *)

Definition opt_effect {A} (f : A -> Effect) (x : option A) : list Effect :=
  match x with
  | Some a => [f a]
  | None => []
  end.

(** The release requests one [cleanup] call makes, in order. *)
Definition cleanup_effects (w : World) : list Effect :=
  opt_effect ClearInterval (truthy_num (frameIntervalRef (sess w))) ++
  match micStreamRef (sess w) with
  | Some mic => map TrackStop (getTracks mic)
  | None => []
  end ++
  map SourceStop (sourcesRef (audio w)) ++
  opt_effect ContextClose (inputAudioCtxRef (audio w)) ++
  opt_effect ContextClose (outputAudioCtxRef (audio w)) ++
  opt_effect SessionClose (sessionPromiseRef (sess w)).

(** The world one [cleanup] call leaves. *)
Definition cleaned (w : World) : World :=
  {| ann := {| drawings := Some []; history := []; historyIndex := -1;
               drawingsRef := Some []; historyRef := [];
               historyIndexRef := -1 |};
     sess := {| isActive := false; isConnecting := false;
                error := error (sess w); voiceData := [];
                screenStream := None;
                micStreamRef := micStreamRef (sess w);
                frameIntervalRef := frameIntervalRef (sess w);
                sessionPromiseRef := None |};
     audio := {| inputAudioCtxRef := None; outputAudioCtxRef := None;
                 outputAnalyserRef := None; nextStartTimeRef := 0;
                 sourcesRef := [] |};
     cap := cap w;
     hud := hud w;
     selectedTool := selectedTool w;
     timers := timers w;
     trace := trace w ++ cleanup_effects w;
     reads := reads w |}.

(** The start times requested, in order. *)
Definition starts (t : list Effect) : list Z :=
  omap (fun e => match e with SourceStart _ s => Some s | _ => None end) t.

(** The scheduling rule in the words of the design: a chunk starts at the
    later of [nextStartTime] and the playback clock, and [nextStartTime]
    becomes that start plus the chunk's duration. Chunks are given as
    (clock reading, duration). *)
Fixpoint schedule (nextStartTime : Z) (chunks : list (Z * Z)) : list Z :=
  match chunks with
  | [] => []
  | (clock, duration) :: rest =>
      let start := Z.max nextStartTime clock in
      start :: schedule (start + duration) rest
  end.

Fixpoint next_after (nextStartTime : Z) (chunks : list (Z * Z)) : Z :=
  match chunks with
  | [] => nextStartTime
  | (clock, duration) :: rest =>
      next_after (Z.max nextStartTime clock + duration) rest
  end.

(** The duration of the chunk a message carries, when the audio branch
    plays it. *)
Definition chunk_duration (c : Env * Message) : option Z :=
  match audioData c.2 with
  | Some data => if String.eqb data "" then None else decodeAudioData c.1 data
  | None => None
  end.

Definition messages (chunks : list (Env * Message)) : list (Env * Event) :=
  map (fun c => (c.1, EvMessage c.2)) chunks.

Definition has_output (w : World) : Prop :=
  is_Some (outputAudioCtxRef (audio w)) /\
  is_Some (outputAnalyserRef (audio w)).

(** The world after the audio branch played a chunk of duration [d]. *)
Definition played (E : Env) (d : Z) (w : World) : World :=
  let start := Z.max (nextStartTimeRef (audio w)) (currentTime E) in
  with_audio (fun a =>
    mkAudio (inputAudioCtxRef a) (outputAudioCtxRef a) (outputAnalyserRef a)
            (start + d) (set_add (createBufferSource E) (sourcesRef a)))
    (with_trace (fun t => t ++ [SourceStart (createBufferSource E) start]) w).

(** What a step leaves alone: everything but the annotations, the clock
    reads and acknowledgments added to the trace. *)
Definition is_ack (e : Effect) : Prop :=
  match e with SendToolResponse _ _ _ => True | _ => False end.

Definition tool_frame (w w' : World) : Prop :=
  sess w' = sess w /\ audio w' = audio w /\ cap w' = cap w /\
  hud w' = hud w /\ selectedTool w' = selectedTool w /\
  timers w' = timers w /\
  exists acks, trace w' = trace w ++ acks /\ Forall is_ack acks.

(** The drawings a [marks.map(...)] builds: mark [i] gets the id made from
    the clock reading taken for it. *)
Fixpoint marks_from (E : Env) (r i : nat) (ms : list Obj) : list Drawing :=
  match ms with
  | [] => []
  | m :: ms' =>
      (m ∪ {[ "id" := VStr (ai_id (Date_now E r) i) ]})
        :: marks_from E (S r) (S i) ms'
  end.

Definition ack_marks (fc : FunctionCall) : Effect :=
  SendToolResponse (fc_id fc) (fc_name fc) "HUD marks deployed, Sir.".

Definition captions_after (m : Message) (c : Captions) : Captions :=
  let c1 :=
    match inputTranscription m with
    | Some txt =>
        let r := mkTranscript (js_append (user (transcriptionRef c)) txt)
                              (ai (transcriptionRef c)) in
        mkCaptions r r
    | None => c
    end in
  match outputTranscription m with
  | Some txt =>
      let r := mkTranscript (user (transcriptionRef c1))
                            (js_append (ai (transcriptionRef c1)) txt) in
      mkCaptions r r
  | None => c1
  end.

Definition interrupted_world (w : World) : World :=
  with_audio (fun a =>
    mkAudio (inputAudioCtxRef a) (outputAudioCtxRef a) (outputAnalyserRef a)
            0 [])
    (with_trace (fun t => t ++ map SourceStop (sourcesRef (audio w))) w).

(** The tool schema of [markScreenTool]: [type] is one of the five marker
    names, [x] and [y] are numbers, and the optional properties have the
    declared types. *)
Definition has_type (ok : Value -> bool) (required : bool) (v : option Value)
  : bool :=
  match v with
  | Some v => ok v
  | None => negb required
  end.

Definition is_num (v : Value) : bool :=
  match v with VNum _ => true | _ => false end.
Definition is_str (v : Value) : bool :=
  match v with VStr _ => true | _ => false end.
Definition is_points (v : Value) : bool :=
  match v with VPoints _ => true | _ => false end.
Definition is_marker (v : Value) : bool :=
  match v with
  | VStr s => bool_decide (s ∈ ["circle"; "rect"; "arrow"; "text"; "path"])
  | _ => false
  end.

Definition well_formed_mark (m : Obj) : bool :=
  has_type is_marker true (m !! "type") &&
  has_type is_num true (m !! "x") &&
  has_type is_num true (m !! "y") &&
  has_type is_num false (m !! "width") &&
  has_type is_num false (m !! "height") &&
  has_type is_str false (m !! "label") &&
  has_type is_points false (m !! "points").

(** A descriptor with an unknown marker type, a string for [x] and no [y]. *)
Definition bad_mark : Obj := obj [("type", VStr "hexagon"); ("x", VStr "left")].

Fixpoint no_dash (s : string) : bool :=
  match s with
  | EmptyString => true
  | String c s' => negb (Ascii.eqb c "-"%char) && no_dash s'
  end.

(** An id the program generated at another clock reading, or for a drawing
    made with the pointer. *)
Inductive generated_elsewhere (now : N) : string -> Prop :=
| by_agent t i : t <> now \/ i <> 0%nat -> generated_elsewhere now (ai_id t i)
| by_pointer t : generated_elsewhere now (user_id t).

(** Whenever the pointer is up there is no preview drawing, in every world
    the events can reach. *)
Definition pointer_ok (w : World) : Prop :=
  isDrawing (hud w) = false -> previewDrawing (hud w) = None.

(** The same platform with the playback clock at [t]. *)
Definition at_clock (t : Z) (E : Env) : Env :=
  mkEnv t (decodeAudioData E) (createBufferSource E)
        (stop_throws E) (Date_now E) (timeNow E) (Math_sqrt E) (innerWidth E)
        (innerHeight E) (getDisplayMedia E) (getUserMedia E) (err_message E)
        (newInputCtx E) (newOutputCtx E) (createAnalyser E) (connect E)
        (setInterval E).

(** The same platform, on which every [stop()] raises. *)
Definition stops_raise (E : Env) : Env :=
  mkEnv (currentTime E) (decodeAudioData E) (createBufferSource E)
        (fun _ => true) (Date_now E) (timeNow E) (Math_sqrt E) (innerWidth E)
        (innerHeight E) (getDisplayMedia E) (getUserMedia E) (err_message E)
        (newInputCtx E) (newOutputCtx E) (createAnalyser E) (connect E)
        (setInterval E).

Definition audio_msg (data : string) : Message :=
  mkMessage (Some data) None None None false false.

Definition interrupt_msg : Message :=
  mkMessage None None None None false true.

Definition started : World :=
  run [(demoEnv, EvActivate); (demoEnv, EvOpen)] initWorld.

(** ** Further parts of the program *)

(** The props the HUD's undo and redo buttons are enabled by:
    [canUndo={historyIndex >= 0}] and
    [canRedo={historyIndex < history.length - 1}]. *)
Definition canUndo (a : Annotations) : bool := historyIndex a >=? 0.
Definition canRedo (a : Annotations) : bool :=
  historyIndex a <? Z.of_nat (length (history a)) - 1.

(** The annotation state as the program keeps it: the history is within its
    bounds, the drawing list is the snapshot under the cursor (the empty list
    at cursor -1), and each state cell equals the ref it mirrors. *)
Definition ann_wf (a : Annotations) : Prop :=
  history_ok a /\
  drawingsRef a = (if historyIndexRef a =? -1 then Some []
                   else js_index (historyRef a) (historyIndexRef a)) /\
  drawings a = drawingsRef a /\
  history a = historyRef a /\
  historyIndex a = historyIndexRef a.

(** The two tool names the handler recognises. *)
Definition known_call (fc : FunctionCall) : bool :=
  String.eqb (fc_name fc) "mark_screen" || String.eqb (fc_name fc) "clear_marks".

(** The position [getNormalizedPos] computes for an event. *)
Definition normalized (E : Env) (e : MouseEvent) : Point :=
  mkPoint (clientX e / innerWidth E * 1000)%Q
          (clientY e / innerHeight E * 1000)%Q.

(** A press followed by moves, all seen by the same window. *)
Definition drag (E : Env) (e0 : MouseEvent) (es : list MouseEvent)
  : list (Env * Event) :=
  (E, EvMouseDown e0) :: map (fun e => (E, EvMouseMove e)) es.

(** *** The screen-capture tick (the callback given to [setInterval]) *)

Definition MAX_IMAGE_DIMENSION : Z := 1024.

(** What the tick reads of the video element. *)
Record VideoEl := mkVideo {
  paused : bool;
  ended : bool;
  videoWidth : Z;
  videoHeight : Z
}.

(** The arithmetic of the tick is that of JavaScript numbers: every
    division and product is rounded to the nearest double (53-bit
    significand, ties to even). The sizes met here are far from the ends of
    the exponent range, which is not modelled. *)

(** The binade of a positive number: the [e] with 2^e <= a < 2^(e+1). *)
Definition binade (a : Q) : Z :=
  let e0 := Z.log2 (Qnum a) - Z.log2 (Zpos (Qden a)) in
  if Qle_bool (2 ^ e0) a then e0 else e0 - 1.

Definition round_half_even (q : Q) : Z :=
  let f := Qfloor q in
  match (q - inject_Z f ?= 1 # 2)%Q with
  | Lt => f
  | Gt => f + 1
  | Eq => if Z.even f then f else f + 1
  end.

Definition double_pos (a : Q) : Q :=
  let ulp := (2 ^ (binade a - 52))%Q in
  (inject_Z (round_half_even (a / ulp)) * ulp)%Q.

(** The double nearest to [x]. *)
Definition double (x : Q) : Q :=
  match Qnum x with
  | Z0 => 0%Q
  | Zpos _ => double_pos x
  | Zneg _ => (- double_pos (- x))%Q
  end.

(** Half the distance from 1 to the next double: 2^-53. *)
Definition double_eps : Q := 1 # 9007199254740992.

(** The size of the frame to send: both sides are scaled by the same ratio
    when either exceeds [MAX_IMAGE_DIMENSION]. [a / b] and [a * b] on
    numbers are the rounded quotient and product; [Math.min] and
    [Math.floor] are exact. *)
Definition target_size (videoEl : VideoEl) : Z * Z :=
  let targetWidth := videoWidth videoEl in
  let targetHeight := videoHeight videoEl in
  if (targetWidth >? MAX_IMAGE_DIMENSION) || (targetHeight >? MAX_IMAGE_DIMENSION)
  then
    let ratio :=
      Qmin (double (inject_Z MAX_IMAGE_DIMENSION / inject_Z targetWidth))
           (double (inject_Z MAX_IMAGE_DIMENSION / inject_Z targetHeight)) in
    (Qfloor (double (inject_Z targetWidth * ratio)),
     Qfloor (double (inject_Z targetHeight * ratio)))
  else (targetWidth, targetHeight).

(** One tick: nothing happens without a drawing context or while the video
    is paused or ended; otherwise the canvas takes the target size (it is
    assigned only when it differs) and a frame of that size is sent. The
    result is the canvas size after the tick and the size of the frame
    sent, if one was. *)
Definition frame_tick (ctx : bool) (videoEl : VideoEl) (canvas : Z * Z)
  : (Z * Z) * option (Z * Z) :=
  if negb ctx || paused videoEl || ended videoEl then (canvas, None)
  else
    let target := target_size videoEl in
    let canvas' :=
      if negb (canvas.1 =? target.1) || negb (canvas.2 =? target.2)
      then target else canvas in
    (canvas', Some target).

(** *** The HUD's volume pulse *)

(** [avgVolume]: the mean of the byte samples, 0 for no samples. *)
Definition avgVolume (voiceData : list Z) : Q :=
  if (0 <? Z.of_nat (length voiceData))
  then inject_Z (foldl Z.add 0 voiceData) / inject_Z (Z.of_nat (length voiceData))
  else 0.

(** [pulseScale = 1 + (avgVolume / 255) * 0.3] *)
Definition pulseScale (voiceData : list Z) : Q :=
  1 + (avgVolume voiceData / 255) * (3 # 10).

(** ** Streams and captions over a run *)

(** The microphone tracks an event brings into the program: a start
    acquires the microphone stream once the screen has been granted. *)
Definition acquired_mic (ev : Env * Event) : list Track :=
  match ev.2, getDisplayMedia ev.1, getUserMedia ev.1 with
  | EvActivate, Some _, Some mic => getTracks mic
  | _, _, _ => []
  end.

Definition mic_tracks (evs : list (Env * Event)) : list Track :=
  concat (map acquired_mic evs).

(** The text a list of messages carries on one of the two caption
    channels, in arrival order. *)
Definition said (channel : Message -> option (option string))
    (chunks : list (Env * Message)) : string :=
  foldr (fun c s =>
           match channel c.2 with
           | Some txt => default "undefined" txt +:+ s
           | None => s
           end) "" chunks.

Definition mirrored (c : Captions) : Prop :=
  transcription c = transcriptionRef c.

(** * Properties *)

(** ** Array primitives *)

Lemma js_slice_length {A} (l : list A) (i j : Z) :
  (length (js_slice l i j) <= length l)%nat.
Proof.
  unfold js_slice. rewrite length_take, length_drop. lia.
Qed.

Lemma js_slice_prefix {A} (l : list A) (j : Z) :
  0 <= j -> js_slice l 0 j = take (Z.to_nat j) l.
Proof.
  intros Hj. unfold js_slice.
  destruct (0 <? 0) eqn:H0; [lia|].
  destruct (j <? 0) eqn:Hjneg; [lia|].
  replace (Z.to_nat (Z.min 0 (Z.of_nat (length l)))) with 0%nat by lia.
  rewrite drop_0.
  destruct (Z.le_ge_cases j (Z.of_nat (length l))) as [Hle|Hge].
  - f_equal. lia.
  - rewrite !take_ge; [done| lia | lia].
Qed.

Lemma js_slice_all {A} (l : list A) :
  js_slice l 0 (Z.of_nat (length l) - 1 + 1) = l.
Proof.
  rewrite js_slice_prefix by lia.
  apply take_ge. lia.
Qed.

Lemma js_index_last {A} (l : list A) (x : A) :
  js_index (l ++ [x]) (Z.of_nat (length (l ++ [x])) - 1) = Some x.
Proof.
  unfold js_index. rewrite length_app. simpl.
  assert (Hi : Z.of_nat (length l + 1) - 1 = Z.of_nat (length l)) by lia.
  rewrite Hi. destruct (_ <? 0) eqn:H; [lia|].
  rewrite Nat2Z.id. apply list_lookup_middle. done.
Qed.

Lemma js_index_shift_last {A} (l : list A) (x : A) :
  js_index (js_shift (l ++ [x])) (Z.of_nat (length (js_shift (l ++ [x]))) - 1)
  = if decide (l = []) then None else Some x.
Proof.
  destruct l as [|y l]; simpl.
  - reflexivity.
  - apply js_index_last.
Qed.

(** ** Bounded history *)

(** What one push does when the cursor sits on the last snapshot. *)
Lemma updateDrawings_at_end (d : list Drawing) (a : Annotations) :
  historyIndexRef a = Z.of_nat (length (historyRef a)) - 1 ->
  historyRef (updateDrawings d a) =
    if 50 <? Z.of_nat (length (historyRef a)) + 1
    then drop 1 (historyRef a ++ [d]) else historyRef a ++ [d].
Proof.
  intros Hend. unfold updateDrawings; simpl.
  rewrite Hend, js_slice_all, Z.gtb_ltb, length_app. simpl.
  rewrite Nat2Z.inj_add. simpl. by destruct (50 <? _).
Qed.

Lemma updateDrawings_cursor (d : list Drawing) (a : Annotations) :
  historyIndexRef (updateDrawings d a) =
    Z.of_nat (length (historyRef (updateDrawings d a))) - 1.
Proof. done. Qed.

Lemma updateDrawings_ok (d : list Drawing) (a : Annotations) :
  Z.of_nat (length (historyRef a)) <= 50 ->
  history_ok (updateDrawings d a) /\
  js_index (historyRef (updateDrawings d a))
           (historyIndexRef (updateDrawings d a)) = Some d.
Proof.
  intros Hlen. unfold history_ok, updateDrawings; simpl.
  set (kept := js_slice (historyRef a) 0 (historyIndexRef a + 1)).
  assert (Hk : (length kept <= length (historyRef a))%nat)
    by apply js_slice_length.
  rewrite Z.gtb_ltb.
  destruct (50 <? Z.of_nat (length (kept ++ [d]))) eqn:Hbig.
  - apply Z.ltb_lt in Hbig. rewrite js_index_shift_last.
    destruct kept as [|k0 kept']; [simpl in Hbig; lia|].
    rewrite decide_False by done.
    simpl in *. rewrite length_app in *. simpl in *.
    split; [lia|done].
  - apply Z.ltb_ge in Hbig. rewrite js_index_last.
    rewrite length_app in *. simpl in *.
    split; [lia|done].
Qed.

Lemma undo_ok (a : Annotations) : history_ok a -> history_ok (undo a).
Proof.
  unfold history_ok, undo.
  destruct (historyIndexRef a >? 0) eqn:H1; simpl; [lia|].
  destruct (historyIndexRef a =? 0) eqn:H2; simpl; lia.
Qed.

Lemma redo_ok (a : Annotations) : history_ok a -> history_ok (redo a).
Proof.
  unfold history_ok, redo.
  destruct (historyIndexRef a <? _) eqn:H1; simpl; lia.
Qed.

(** Within the invariant, undo and redo never read outside the history, so
    the drawing list stays an array. *)
Lemma undo_defined (a : Annotations) :
  history_ok a -> is_Some (drawingsRef a) -> is_Some (drawingsRef (undo a)).
Proof.
  unfold history_ok, undo. intros [Hl Hi] Hd.
  destruct (historyIndexRef a >? 0) eqn:H1; simpl.
  - unfold js_index. destruct (_ <? 0) eqn:H2; [lia|].
    apply lookup_lt_is_Some. lia.
  - destruct (historyIndexRef a =? 0); simpl; eauto.
Qed.

Lemma redo_defined (a : Annotations) :
  history_ok a -> is_Some (drawingsRef a) -> is_Some (drawingsRef (redo a)).
Proof.
  unfold history_ok, redo. intros [Hl Hi] Hd.
  destruct (historyIndexRef a <? _) eqn:H1; simpl; [|done].
  unfold js_index. destruct (_ <? 0) eqn:H2; [lia|].
  apply lookup_lt_is_Some. lia.
Qed.

Lemma applyCalls_snoc ds d a :
  applyCalls (ds ++ [d]) a = updateDrawings d (applyCalls ds a).
Proof. unfold applyCalls. by rewrite foldl_app. Qed.

(** After pushes only, the cursor sits on the last snapshot. *)
Lemma applyCalls_at_end (ds : list (list Drawing)) :
  let a := applyCalls ds initAnnotations in
  history_ok a /\
  historyIndexRef a = Z.of_nat (length (historyRef a)) - 1.
Proof.
  induction ds as [|d ds IH] using rev_ind.
  - unfold history_ok; simpl; lia.
  - rewrite applyCalls_snoc. simpl in *. destruct IH as [[Hl Hi] He].
    split; [by apply updateDrawings_ok|done].
Qed.

(** C2. From the initial state (no history, cursor -1), after every call of
    a finite sequence of [updateDrawings] calls the history holds at most 50
    snapshots and the cursor lies between -1 and length-1; the cursor points
    at the snapshot just pushed; and a push onto a full history of 50 drops
    the oldest snapshot, keeps the other 49 in order, and leaves the cursor
    on the new snapshot at position 49. *)
Theorem history_bounded_after_every_call
    (ds : list (list Drawing)) (d : list Drawing) :
  let a := applyCalls ds initAnnotations in
  let a' := updateDrawings d a in
  history_ok a /\ history_ok a' /\
  js_index (historyRef a') (historyIndexRef a') = Some d /\
  (Z.of_nat (length (historyRef a)) = 50 ->
     historyRef a' = drop 1 (historyRef a) ++ [d] /\
     length (historyRef a') = 50%nat /\
     historyIndexRef a' = 49).
Proof.
  intros a a'.
  destruct (applyCalls_at_end ds) as [Hok Hend]. fold a in Hok, Hend.
  destruct (updateDrawings_ok d a) as [Hok' Hcur]; [apply Hok|].
  split; [done|]. split; [done|]. split; [done|]. intros Hfull.
  assert (Hh : historyRef a' = drop 1 (historyRef a) ++ [d]).
  { unfold a'. rewrite updateDrawings_at_end by done.
    assert (Hbig : (50 <? Z.of_nat (length (historyRef a)) + 1) = true)
      by (apply Z.ltb_lt; lia).
    rewrite Hbig. destruct (historyRef a); [simpl in *; lia|done]. }
  split; [done|].
  unfold a' at 2. rewrite updateDrawings_cursor. fold a'.
  rewrite Hh, length_app, length_drop. simpl. lia.
Qed.

Lemma history_bounded_witness :
  let a := applyCalls (replicate 50 []) initAnnotations in
  Z.of_nat (length (historyRef a)) = 50 /\
  historyIndexRef (updateDrawings [circle_mark] a) = 49.
Proof.
  split; [reflexivity|].
  apply (history_bounded_after_every_call (replicate 50 []) [circle_mark]).
  reflexivity.
Defined.

(** C7. With snapshots [A; B; C] and the cursor on C (index 2), [undo] moves
    the cursor to 1 and shows B; pushing D then leaves the stack [A; B; D]
    with the cursor on D at index 2: the snapshot C beyond the cursor is
    gone. *)
Theorem push_after_undo_truncates
    (a : Annotations) (A B C D : list Drawing) :
  historyRef a = [A; B; C] ->
  historyIndexRef a = 2 ->
  let a1 := undo a in
  let a2 := updateDrawings D a1 in
  historyIndexRef a1 = 1 /\ drawingsRef a1 = Some B /\ drawings a1 = Some B /\
  historyRef a1 = [A; B; C] /\
  historyRef a2 = [A; B; D] /\ history a2 = [A; B; D] /\
  historyIndexRef a2 = 2 /\ historyIndex a2 = 2 /\
  drawingsRef a2 = Some D /\ drawings a2 = Some D.
Proof.
  intros Hh Hi. unfold undo, updateDrawings. rewrite Hi, Hh. simpl.
  repeat split.
Qed.

Lemma push_after_undo_truncates_witness :
  let a := applyCalls [[]; [circle_mark]; [circle_mark; circle_mark]]
                      initAnnotations in
  historyRef (updateDrawings [∅] (undo a)) = [[]; [circle_mark]; [∅]].
Proof.
  apply (push_after_undo_truncates
           (applyCalls [[]; [circle_mark]; [circle_mark; circle_mark]]
                       initAnnotations)
           [] [circle_mark] [circle_mark; circle_mark] [∅]);
    reflexivity.
Defined.

(** C8. In a history whose first snapshot is [s0]: [undo] with the cursor at
    0 moves it to -1 and empties the drawing list; [redo] with the cursor at
    -1 moves it to 0 and shows [s0] again; neither changes the stack. *)
Theorem undo_redo_at_bottom
    (a : Annotations) (s0 : list Drawing) (rest : list (list Drawing)) :
  historyRef a = s0 :: rest ->
  (historyIndexRef a = 0 ->
     historyIndexRef (undo a) = -1 /\ historyIndex (undo a) = -1 /\
     drawingsRef (undo a) = Some [] /\ drawings (undo a) = Some [] /\
     historyRef (undo a) = s0 :: rest /\
     historyIndexRef (redo (undo a)) = 0 /\
     drawingsRef (redo (undo a)) = Some s0) /\
  (historyIndexRef a = -1 ->
     historyIndexRef (redo a) = 0 /\ historyIndex (redo a) = 0 /\
     drawingsRef (redo a) = Some s0 /\ drawings (redo a) = Some s0 /\
     historyRef (redo a) = s0 :: rest).
Proof.
  intros Hh. split; intros Hi.
  - unfold redo, undo. rewrite Hi. simpl. rewrite Hh. simpl.
    destruct (-1 <? Z.of_nat (S (length rest)) - 1) eqn:Hlt.
    + simpl. repeat split.
    + apply Z.ltb_ge in Hlt. lia.
  - unfold redo. rewrite Hi, Hh. simpl.
    destruct (-1 <? Z.of_nat (S (length rest)) - 1) eqn:Hlt.
    + simpl. repeat split.
    + apply Z.ltb_ge in Hlt. lia.
Qed.

Lemma undo_redo_at_bottom_witness :
  let a := applyCalls [[circle_mark]] initAnnotations in
  (historyIndexRef (undo a) = -1 /\ drawingsRef (undo a) = Some []) /\
  drawingsRef (redo (undo a)) = Some [circle_mark].
Proof.
  pose (a := applyCalls [[circle_mark]] initAnnotations).
  destruct (undo_redo_at_bottom a [circle_mark] [] eq_refl) as [Hundo _].
  destruct (undo_redo_at_bottom (undo a) [circle_mark] [] eq_refl)
    as [_ Hredo].
  split.
  - split; [exact (proj1 (Hundo eq_refl))|].
    exact (proj1 (proj2 (proj2 (Hundo eq_refl)))).
  - exact (proj1 (proj2 (proj2 (Hredo eq_refl)))).
Defined.

(** ** Reasoning about handlers *)

Lemma bind_unfold {A B} (c : Eff A) (f : A -> Eff B) E w :
  (c ≫= f) E w =
  match c E w with
  | (Return a, w') => f a E w'
  | (Throw, w') => (Throw, w')
  end.
Proof. reflexivity. Qed.

(** Closed statements are settled by evaluation. *)
Ltac evaluate := vm_compute; repeat split; reflexivity.

Ltac eff_unfold :=
  repeat (rewrite bind_unfold;
          unfold ask, get, throw, skip, emit, modify, when, try_catch,
                 mret, Eff_ret; simpl).

Lemma with_trace_app (w : World) (l1 l2 : list Effect) :
  with_trace (fun t => t ++ l2) (with_trace (fun t => t ++ l1) w)
  = with_trace (fun t => t ++ l1 ++ l2) w.
Proof. unfold with_trace; simpl. by rewrite app_assoc. Qed.

Lemma with_trace_nil (w : World) : with_trace (fun t => t ++ []) w = w.
Proof. destruct w. unfold with_trace; simpl. by rewrite app_nil_r. Qed.

(** A loop whose body only emits requests. *)
Lemma forEach_emit {A} (f : A -> Effect) (xs : list A) E w :
  forEach (fun x => emit (f x)) xs E w
  = (Return tt, with_trace (fun t => t ++ map f xs) w).
Proof.
  revert w. induction xs as [|x xs IH]; intros w; simpl.
  - by rewrite with_trace_nil.
  - rewrite bind_unfold. unfold emit at 1, modify. rewrite IH.
    by rewrite with_trace_app.
Qed.

(** Stopping every source: each one is asked to stop, in order, and a
    raising [stop()] does not end the loop. *)
Lemma try_stop_each (xs : list Node) E w :
  forEach (fun s => try_catch (source_stop s) skip) xs E w
  = (Return tt, with_trace (fun t => t ++ map SourceStop xs) w).
Proof.
  revert w. induction xs as [|x xs IH]; intros w; simpl.
  - by rewrite with_trace_nil.
  - rewrite bind_unfold.
    assert (Hx : try_catch (source_stop x) skip E w
                 = (Return tt, with_trace (fun t => t ++ [SourceStop x]) w)).
    { unfold try_catch, source_stop. eff_unfold.
      by destruct (stop_throws E x). }
    rewrite Hx, IH. by rewrite with_trace_app.
Qed.

Lemma stop_all_sources_spec E w :
  stop_all_sources E w
  = (Return tt,
     with_trace (fun t => t ++ map SourceStop (sourcesRef (audio w))) w).
Proof.
  unfold stop_all_sources. rewrite bind_unfold. simpl. apply try_stop_each.
Qed.

Lemma bind_modify {B} f (k : unit -> Eff B) E w :
  (modify f ≫= k) E w = k tt E (f w).
Proof. reflexivity. Qed.

Lemma bind_get {B} (k : World -> Eff B) E w : (get ≫= k) E w = k w E w.
Proof. reflexivity. Qed.

Lemma bind_ask {B} (k : Env -> Eff B) E w : (ask ≫= k) E w = k E E w.
Proof. reflexivity. Qed.

Lemma bind_ret {A B} (a : A) (k : A -> Eff B) E w :
  (mret a ≫= k) E w = k a E w.
Proof. reflexivity. Qed.

Lemma bind_skip {B} (k : unit -> Eff B) E w : (skip ≫= k) E w = k tt E w.
Proof. reflexivity. Qed.

Lemma bind_throw {A B} (k : A -> Eff B) E w :
  (throw ≫= k) E w = (Throw, w).
Proof. reflexivity. Qed.

Lemma bind_emit {B} e (k : unit -> Eff B) E w :
  (emit e ≫= k) E w = k tt E (with_trace (fun t => t ++ [e]) w).
Proof. reflexivity. Qed.

Lemma bind_DateNow {B} (k : N -> Eff B) E w :
  (DateNow ≫= k) E w = k (Date_now E (reads w)) E (with_reads S w).
Proof. reflexivity. Qed.

Lemma bind_forEach_emit {A B} (f : A -> Effect) xs (k : unit -> Eff B) E w :
  (forEach (fun x => emit (f x)) xs ≫= k) E w
  = k tt E (with_trace (fun t => t ++ map f xs) w).
Proof. by rewrite bind_unfold, forEach_emit. Qed.

Lemma bind_stop_all_sources {B} (k : unit -> Eff B) E w :
  (stop_all_sources ≫= k) E w
  = k tt E (with_trace (fun t => t ++ map SourceStop (sourcesRef (audio w))) w).
Proof. by rewrite bind_unfold, stop_all_sources_spec. Qed.

Ltac eff_step :=
  first
    [ rewrite bind_modify | rewrite bind_get | rewrite bind_ask
    | rewrite bind_ret | rewrite bind_skip | rewrite bind_throw
    | rewrite bind_emit | rewrite bind_DateNow
    | rewrite bind_forEach_emit | rewrite bind_stop_all_sources ].

Ltac eff_run := simpl; repeat (eff_step; simpl).

(** ** Teardown *)

Lemma bind_when_some_emit {A B} (f : A -> Effect) (x : option A)
    (k : unit -> Eff B) E w :
  (when_some x (fun a => emit (f a)) ≫= k) E w
  = k tt E (with_trace (fun t => t ++ opt_effect f x) w).
Proof.
  destruct x; simpl.
  - by rewrite bind_emit.
  - by rewrite bind_skip, with_trace_nil.
Qed.

Lemma bind_stop_tracks {B} (mic : option MediaStream) (k : unit -> Eff B) E w :
  (when_some mic (fun mic => forEach (fun t => emit (TrackStop t))
                                     (getTracks mic)) ≫= k) E w
  = k tt E (with_trace (fun t => t ++ match mic with
                                      | Some mic => map TrackStop (getTracks mic)
                                      | None => []
                                      end) w).
Proof.
  destruct mic; simpl.
  - by rewrite bind_forEach_emit.
  - by rewrite bind_skip, with_trace_nil.
Qed.

Lemma cleanup_spec E w : cleanup E w = (Return tt, cleaned w).
Proof.
  unfold cleanup, cleaned, cleanup_effects.
  destruct w as [an se au ca hu st ti tr rd].
  destruct se as [ia ic er vd ss mic fi sp].
  destruct au as [ictx octx oan nst srcs].
  eff_run.
  rewrite bind_when_some_emit; simpl.
  rewrite bind_stop_tracks; simpl.
  eff_run.
  rewrite bind_when_some_emit; simpl.
  rewrite bind_when_some_emit; simpl.
  eff_run.
  rewrite bind_unfold.
  destruct sp; simpl; unfold modify; simpl;
    rewrite <- ?app_assoc, ?app_nil_r; reflexivity.
Qed.

Lemma exec_cleanup E w : exec cleanup E w = cleaned w.
Proof. unfold exec. by rewrite cleanup_spec. Qed.

(** What a second [cleanup] call does after a first one: the world keeps
    every field, and the only requests are the ones whose cells the first
    call did not reset. *)
Lemma cleanup_second_call E E' w :
  exec cleanup E' (exec cleanup E w)
  = with_trace (fun t => t ++
      opt_effect ClearInterval (truthy_num (frameIntervalRef (sess w))) ++
      match micStreamRef (sess w) with
      | Some mic => map TrackStop (getTracks mic)
      | None => []
      end) (exec cleanup E w).
Proof.
  rewrite !exec_cleanup.
  assert (Hagain : cleanup_effects (cleaned w)
    = opt_effect ClearInterval (truthy_num (frameIntervalRef (sess w))) ++
      match micStreamRef (sess w) with
      | Some mic => map TrackStop (getTracks mic)
      | None => []
      end).
  { unfold cleanup_effects. simpl. by rewrite app_nil_r. }
  unfold cleaned at 1. rewrite Hagain. reflexivity.
Qed.

(** The sources, the audio contexts and the remote session are released by
    the first call only. *)
Lemma cleanup_second_call_releases_no_audio E E' w e :
  e ∈ effects_of cleanup E' (exec cleanup E w) ->
  (exists id, e = ClearInterval id) \/ (exists t, e = TrackStop t).
Proof.
  unfold effects_of. rewrite cleanup_second_call. simpl.
  rewrite drop_app_length. intros [He|He]%elem_of_app.
  - destruct (truthy_num _); simpl in He; [|by apply elem_of_nil in He].
    apply list_elem_of_singleton in He. eauto.
  - destruct (micStreamRef _); [|by apply elem_of_nil in He].
    apply list_elem_of_fmap in He as (t & -> & _). eauto.
Qed.

(** C1, evaluated. A session is started (both devices granted, the session
    opens and the frame timer is installed) and [cleanup] is called twice.
    The first call releases the timer, the microphone track (2), both audio
    contexts and the session; the screen track (1) is not stopped by any
    call. The second and the third call ask again for the timer to be
    cleared and the microphone track to be stopped: the cells
    [frameIntervalRef] and [micStreamRef] are tested but never reset. *)
Theorem cleanup_twice_repeats_timer_and_track :
  let once := exec cleanup demoEnv started in
  effects_of cleanup demoEnv started
    = [ClearInterval 7; TrackStop 2%nat; ContextClose 10%nat;
       ContextClose 11%nat; SessionClose 13%nat] /\
  effects_of cleanup demoEnv once = [ClearInterval 7; TrackStop 2%nat] /\
  effects_of cleanup demoEnv (exec cleanup demoEnv once)
    = [ClearInterval 7; TrackStop 2%nat].
Proof. vm_compute. repeat split. Qed.

(** ** Playback scheduler *)

Lemma audio_output_plays E m w d :
  has_output w ->
  chunk_duration (E, m) = Some d ->
  audio_output m E w = (Return tt, played E d w).
Proof.
  intros [[c Hc] [an Han]] Hd. unfold chunk_duration in Hd. simpl in Hd.
  unfold audio_output, played, set_nextStartTime. rewrite bind_get.
  destruct (audioData m) as [data|]; [|done].
  rewrite Hc, Han. destruct (String.eqb data ""); [done|].
  eff_run. rewrite Hd. eff_run.
  destruct w as [an0 se au ca hu st ti tr rd], au; reflexivity.
Qed.

Lemma tool_frame_refl w : tool_frame w w.
Proof.
  repeat split. exists []. by rewrite app_nil_r.
Qed.

Lemma tool_frame_trans w1 w2 w3 :
  tool_frame w1 w2 -> tool_frame w2 w3 -> tool_frame w1 w3.
Proof.
  intros (?&?&?&?&?&?&a1&Ht1&Ha1) (?&?&?&?&?&?&a2&Ht2&Ha2).
  repeat split; try congruence.
  exists (a1 ++ a2). rewrite Ht2, Ht1, app_assoc. split; [done|].
  by apply Forall_app.
Qed.

Lemma new_mark_spec E (m : Obj) (i : nat) w :
  new_mark m i E w
  = (Return (m ∪ {[ "id" := VStr (ai_id (Date_now E (reads w)) i) ]}),
     with_reads S w).
Proof. reflexivity. Qed.

Lemma mapI_new_mark E (ms : list Obj) (i : nat) w :
  mapI new_mark i ms E w
  = (Return (marks_from E (reads w) i ms),
     with_reads (fun r => r + length ms)%nat w).
Proof.
  revert i w. induction ms as [|m ms IH]; intros i w.
  - destruct w; simpl. unfold mret, Eff_ret. by rewrite Nat.add_0_r.
  - cbn [mapI]. rewrite bind_unfold, new_mark_spec.
    rewrite bind_unfold, IH.
    destruct w; simpl. unfold mret, Eff_ret. do 3 f_equal. lia.
Qed.

Lemma marks_from_length E r i ms : length (marks_from E r i ms) = length ms.
Proof.
  revert r i. induction ms as [|m ms IH]; intros r i; simpl; [done|].
  by rewrite IH.
Qed.

(** ** Tool calls *)

(** A [mark_screen] call whose [marks] is an array, on a defined drawing
    list: every mark becomes a drawing, the list is replaced through
    [updateDrawings], and the call is acknowledged. *)
Lemma handle_mark_screen E fc w ms cur :
  fc_name fc = "mark_screen" ->
  fc_marks fc = Some ms ->
  drawingsRef (ann w) = Some cur ->
  handle_call fc E w
  = (Return tt,
     with_trace (fun t => t ++ [ack_marks fc])
       (with_ann (updateDrawings (cur ++ marks_from E (reads w) 0 ms))
          (with_reads (fun r => r + length ms)%nat w))).
Proof.
  intros Hn Hm Hc. unfold handle_call, do_updateDrawings.
  rewrite Hn, Hm. simpl. rewrite bind_ret, bind_unfold, mapI_new_mark.
  rewrite bind_get. simpl. rewrite Hc. eff_run.
  unfold ack_marks. by rewrite Hn.
Qed.

Lemma handle_call_frame E fc w : tool_frame w (handle_call fc E w).2.
Proof.
  unfold handle_call, do_updateDrawings.
  destruct (String.eqb (fc_name fc) "mark_screen").
  - destruct (fc_marks fc) as [ms|]; [|apply tool_frame_refl].
    rewrite bind_ret, bind_unfold, mapI_new_mark, bind_get. simpl.
    destruct (drawingsRef (ann w)); eff_run.
    + repeat split. eexists [_]. split; [done|]. by repeat constructor.
    + repeat split. exists []. by rewrite app_nil_r.
  - destruct (String.eqb (fc_name fc) "clear_marks"); eff_run.
    + repeat split. eexists [_]. split; [done|]. by repeat constructor.
    + apply tool_frame_refl.
Qed.

Lemma forEach_handle_call_frame E calls w :
  tool_frame w (forEach handle_call calls E w).2.
Proof.
  revert w. induction calls as [|fc calls IH]; intros w; simpl.
  - apply tool_frame_refl.
  - rewrite bind_unfold.
    pose proof (handle_call_frame E fc w) as Hfc.
    destruct (handle_call fc E w) as [[[]|] w1]; simpl in *; [|done].
    eapply tool_frame_trans; [exact Hfc|apply IH].
Qed.

Lemma tool_handling_frame E m w : tool_frame w (tool_handling m E w).2.
Proof.
  unfold tool_handling. destruct (toolCall m).
  - apply forEach_handle_call_frame.
  - apply tool_frame_refl.
Qed.

(** ** Captions and interruption, as functions of the world *)

Lemma transcription_handling_spec E m w :
  transcription_handling m E w
  = (Return tt,
     with_timers (fun ts => ts ++ if turnComplete m
                                  then [timeNow E + clear_delay] else [])
       (with_cap (captions_after m) w)).
Proof.
  unfold transcription_handling, captions_after, when.
  destruct w as [an se au ca hu st ti tr rd].
  destruct (inputTranscription m), (outputTranscription m),
    (turnComplete m); eff_run;
    unfold skip, mret, Eff_ret, with_timers, with_cap; simpl;
    rewrite ?app_nil_r; try reflexivity; by destruct ca.
Qed.

Lemma interruption_spec E m w :
  interruption m E w
  = (Return tt, if interrupted m then interrupted_world w else w).
Proof.
  unfold interruption, when, interrupted_world, set_nextStartTime.
  destruct (interrupted m); [|done].
  eff_run. by destruct w as [an se au ca hu st ti tr rd], au.
Qed.

Lemma starts_acks t acks : Forall is_ack acks -> starts (t ++ acks) = starts t.
Proof.
  intros Ha. unfold starts. rewrite omap_app.
  assert (Hnil : omap (fun e => match e with
                                | SourceStart _ s => Some s
                                | _ => None
                                end) acks = []).
  { induction Ha as [|e acks He _ IH]; [done|].
    destruct e; simpl in *; done. }
  by rewrite Hnil, app_nil_r.
Qed.

(** The rest of the handler after the audio branch, for a message that does
    not carry the interruption flag: the scheduler state and the start
    requests stay as the audio branch left them, also when a tool call
    raises. *)
Lemma after_audio_frame E m w1 :
  interrupted m = false ->
  let w' := ((tool_handling m ;; transcription_handling m ;;
              interruption m) E w1).2 in
  audio w' = audio w1 /\ starts (trace w') = starts (trace w1).
Proof.
  intros Hi. rewrite bind_unfold.
  pose proof (tool_handling_frame E m w1) as Hf.
  destruct (tool_handling m E w1) as [[[]|] w2]; simpl in *;
    destruct Hf as (_ & Ha & _ & _ & _ & _ & acks & Ht & Hacks).
  - rewrite bind_unfold, transcription_handling_spec, interruption_spec, Hi.
    simpl. split; [done|]. rewrite Ht. by apply starts_acks.
  - split; [done|]. rewrite Ht. by apply starts_acks.
Qed.

Lemma onmessage_chunk E m w d :
  has_output w ->
  chunk_duration (E, m) = Some d ->
  interrupted m = false ->
  let w' := exec (onmessage m) E w in
  has_output w' /\
  nextStartTimeRef (audio w')
    = Z.max (nextStartTimeRef (audio w)) (currentTime E) + d /\
  starts (trace w')
    = starts (trace w) ++ [Z.max (nextStartTimeRef (audio w)) (currentTime E)].
Proof.
  intros Hout Hd Hi. unfold exec, onmessage.
  rewrite bind_unfold, (audio_output_plays E m w d Hout Hd).
  destruct (after_audio_frame E m (played E d w) Hi) as [Ha Ht].
  simpl in *. unfold has_output. rewrite Ha, Ht. simpl.
  split; [exact Hout|]. split; [done|].
  unfold starts. by rewrite omap_app.
Qed.

Lemma schedule_lookup next timing i clock d s :
  timing !! i = Some (clock, d) ->
  schedule next timing !! i = Some s ->
  s = Z.max (next_after next (take i timing)) clock /\
  next_after next (take (S i) timing) = s + d /\
  clock <= s /\
  (forall s', schedule next timing !! S i = Some s' -> s + d <= s').
Proof.
  revert next i. induction timing as [|[c0 d0] timing IH]; intros next i Hc Hs.
  - done.
  - destruct i as [|i]; simpl in *.
    + injection Hc as -> ->. injection Hs as <-.
      repeat split; [lia|].
      intros s' Hs'. destruct timing as [|[c1 d1] timing]; simpl in *; [done|].
      injection Hs' as <-. lia.
    + by apply IH.
Qed.

(** C3. Chunks with durations [ds] arrive in order, each played by the audio
    branch, none with the interruption flag. Every chunk is asked to start
    at the later of [nextStartTime] and the playback clock read for it;
    [nextStartTime] is then that start plus the chunk's duration; so each
    start is at or after the clock reading, and at or after the previous
    chunk's start plus the previous chunk's duration. *)
Theorem chunks_start_back_to_back
    (w : World) (chunks : list (Env * Message)) (ds : list Z) :
  has_output w ->
  Forall2 (fun c d => chunk_duration c = Some d /\ interrupted c.2 = false)
          chunks ds ->
  let timing := zip (map (fun c => currentTime c.1) chunks) ds in
  let next0 := nextStartTimeRef (audio w) in
  let w' := run (messages chunks) w in
  starts (trace w') = starts (trace w) ++ schedule next0 timing /\
  nextStartTimeRef (audio w') = next_after next0 timing /\
  forall i clock d s,
    timing !! i = Some (clock, d) ->
    schedule next0 timing !! i = Some s ->
    s = Z.max (next_after next0 (take i timing)) clock /\
    next_after next0 (take (S i) timing) = s + d /\
    clock <= s /\
    (forall s', schedule next0 timing !! S i = Some s' -> s + d <= s').
Proof.
  intros Hout Hall. simpl.
  split; [|split]; [| |intros i clock d s; apply schedule_lookup].
  - revert w Hout. induction Hall as [|[E m] d chunks ds [Hd Hi] _ IH];
      intros w Hout; simpl.
    + by rewrite app_nil_r.
    + destruct (onmessage_chunk E m w d Hout Hd Hi) as (Hout' & Hn & Ht).
      change (step w (E, EvMessage m)) with (exec (onmessage m) E w).
      rewrite IH by done.
      rewrite Ht, Hn, <- app_assoc. done.
  - revert w Hout. induction Hall as [|[E m] d chunks ds [Hd Hi] _ IH];
      intros w Hout; simpl.
    + done.
    + destruct (onmessage_chunk E m w d Hout Hd Hi) as (Hout' & Hn & Ht).
      change (step w (E, EvMessage m)) with (exec (onmessage m) E w).
      rewrite IH by done. by rewrite Hn.
Qed.

Lemma starts_stops t ns : starts (t ++ map SourceStop ns) = starts t.
Proof.
  unfold starts. rewrite omap_app.
  assert (Hnil : omap (fun e => match e with
                                | SourceStart _ s => Some s
                                | _ => None
                                end) (map SourceStop ns) = [])
    by (induction ns; simpl; done).
  by rewrite Hnil, app_nil_r.
Qed.

(** The start requests of a message are those of its audio branch. *)
Lemma after_audio_starts E m w1 :
  starts (trace ((tool_handling m ;; transcription_handling m ;;
                  interruption m) E w1).2) = starts (trace w1).
Proof.
  rewrite bind_unfold.
  pose proof (tool_handling_frame E m w1) as Hf.
  destruct (tool_handling m E w1) as [[[]|] w2]; simpl in *;
    destruct Hf as (_ & Ha & _ & _ & _ & _ & acks & Ht & Hacks).
  - rewrite bind_unfold, transcription_handling_spec, interruption_spec.
    simpl. destruct (interrupted m); simpl.
    + rewrite starts_stops, Ht. by apply starts_acks.
    + rewrite Ht. by apply starts_acks.
  - rewrite Ht. by apply starts_acks.
Qed.

Lemma audio_output_none E m w :
  audioData m = None -> audio_output m E w = (Return tt, w).
Proof.
  intros Hn. unfold audio_output. rewrite bind_get, Hn. done.
Qed.

Lemma tool_handling_none E m w :
  toolCall m = None -> tool_handling m E w = (Return tt, w).
Proof. intros Hn. unfold tool_handling. by rewrite Hn. Qed.

Lemma audio_output_cases E m w :
  audio_output m E w = (Return tt, w) \/
  (exists d, audio_output m E w = (Return tt, played E d w)) \/
  (audio_output m E w).1 = Throw.
Proof.
  destruct (chunk_duration (E, m)) as [d|] eqn:Hd.
  - unfold chunk_duration in Hd. simpl in Hd.
    destruct (outputAudioCtxRef (audio w)) as [c|] eqn:Hc;
      [destruct (outputAnalyserRef (audio w)) as [an|] eqn:Han|].
    + right. left. exists d. apply audio_output_plays; [|done].
      split; [by rewrite Hc|by rewrite Han].
    + left. unfold audio_output. rewrite bind_get, Hc, Han.
      by destruct (audioData m).
    + left. unfold audio_output. rewrite bind_get, Hc.
      by destruct (audioData m).
  - unfold chunk_duration in Hd. simpl in Hd.
    unfold audio_output, set_nextStartTime. rewrite bind_get.
    destruct (audioData m) as [data|]; [|by left].
    destruct (outputAudioCtxRef (audio w)); [|by left].
    destruct (outputAnalyserRef (audio w)); [|by left].
    destruct (String.eqb data ""); [by left|].
    right. right. eff_run. by rewrite Hd.
Qed.

(** X14. The interruption branch inside any message that the handler
    completes: whatever the audio branch and the tool calls did first (a
    chunk of the same message is started, then stopped with the rest),
    every source that was in the active set is asked to stop, the set ends
    empty and [nextStartTime] ends at 0. *)
Lemma interruption_in_any_message E m w :
  (onmessage m E w).1 = Return tt ->
  interrupted m = true ->
  let w1 := exec (onmessage m) E w in
  sourcesRef (audio w1) = [] /\
  nextStartTimeRef (audio w1) = 0 /\
  forall n, n ∈ sourcesRef (audio w) -> SourceStop n ∈ effects_of (onmessage m) E w.
Proof.
  unfold effects_of, exec, onmessage. rewrite bind_unfold. intros Hret Hi.
  assert (Hmid : exists w0 pre,
    audio_output m E w = (Return tt, w0) /\
    trace w0 = trace w ++ pre /\
    forall n, n ∈ sourcesRef (audio w) -> n ∈ sourcesRef (audio w0)).
  { destruct (audio_output_cases E m w) as [H|[[d H]|H]].
    - exists w, []. by rewrite app_nil_r.
    - eexists _, [_]. split; [exact H|]. split; [done|].
      simpl. intros n Hn. unfold set_add. case_bool_decide; [done|].
      set_solver.
    - destruct (audio_output m E w) as [[[]|] w0]; simpl in *; done. }
  destruct Hmid as (w0 & pre & H0 & Hpre & Hsub). rewrite H0 in *.
  rewrite bind_unfold in *.
  destruct (tool_handling_frame E m w0) as (_ & Ha & _ & _ & _ & _ & acks & Ht & _).
  destruct (tool_handling m E w0) as [[[]|] w1]; simpl in *; [|done].
  rewrite bind_unfold, transcription_handling_spec, interruption_spec, Hi.
  simpl. repeat split.
  intros n Hn. rewrite Ht, Hpre, <- !app_assoc, drop_app_length.
  rewrite Ha. apply elem_of_app. right. apply elem_of_app. right.
  apply list_elem_of_fmap. exists n. split; [done|]. by apply Hsub.
Qed.

(** C4. A message that carries the interruption flag (and no audio and no
    tool call of its own) asks every source of the active set to stop, in
    the set's order and whether or not a [stop()] raises, leaves the set
    empty and [nextStartTime] at 0. A chunk played by the next message is
    then asked to start at the playback clock read for it, whatever
    [nextStartTime] had been before the interruption. *)
Theorem interruption_flushes_playback
    (E E' : Env) (m m' : Message) (w : World) (d : Z) :
  audioData m = None ->
  toolCall m = None ->
  interrupted m = true ->
  let w1 := exec (onmessage m) E w in
  trace w1 = trace w ++ map SourceStop (sourcesRef (audio w)) /\
  sourcesRef (audio w1) = [] /\
  nextStartTimeRef (audio w1) = 0 /\
  (has_output w ->
   chunk_duration (E', m') = Some d ->
   0 <= currentTime E' ->
   starts (trace (exec (onmessage m') E' w1))
     = starts (trace w1) ++ [currentTime E']).
Proof.
  intros Ha Ht Hi. unfold exec, onmessage.
  rewrite bind_unfold, audio_output_none by done.
  rewrite bind_unfold, tool_handling_none by done.
  rewrite bind_unfold, transcription_handling_spec, interruption_spec, Hi.
  simpl. repeat split.
  intros Hout Hd Hclock.
  set (w1 := interrupted_world _).
  assert (Hout1 : has_output w1) by exact Hout.
  rewrite bind_unfold, (audio_output_plays E' m' w1 d Hout1 Hd).
  rewrite after_audio_starts. simpl.
  unfold starts. rewrite omap_app. simpl.
  by rewrite Z.max_r.
Qed.

(** ** Marks drawn by the remote agent *)

Lemma marks_from_lookup E r i ms k :
  marks_from E r i ms !! k
  = (fun m => m ∪ {[ "id" := VStr (ai_id (Date_now E (r + k)) (i + k)) ]})
      <$> ms !! k.
Proof.
  revert r i k. induction ms as [|m ms IH]; intros r i k; [done|].
  destruct k as [|k]; simpl.
  - by rewrite !Nat.add_0_r.
  - rewrite IH. by rewrite !Nat.add_succ_r.
Qed.

(** C5, as stated, fails. A [mark_screen] call with one well-formed and one
    malformed descriptor: the malformed one is not dropped, it is appended
    like the other (two drawings where one mark is well-formed). *)
Lemma malformed_mark_is_appended :
  let fc := mkFunctionCall "call-1" "mark_screen"
                           (Some [circle_mark; bad_mark]) in
  let w' := exec (handle_call fc) demoEnv initWorld in
  well_formed_mark circle_mark = true /\
  well_formed_mark bad_mark = false /\
  drawingsRef (ann w')
    = Some [<["id" := VStr "ai-1000-0"]> circle_mark;
            <["id" := VStr "ai-1000-1"]> bad_mark] /\
  ~ (exists kept, drawingsRef (ann w') = Some kept /\
       length kept = length (filter (fun m => well_formed_mark m = true)
                                    [circle_mark; bad_mark])).
Proof.
  intros fc w'.
  assert (Hlen2 : length <$> drawingsRef (ann w') = Some 2%nat)
    by evaluate.
  split; [evaluate|]. split; [evaluate|].
  split; [evaluate|].
  intros (kept & Hk & Hlen). rewrite Hk in Hlen2. simpl in Hlen2.
  injection Hlen2 as Hlen2. rewrite Hlen2 in Hlen.
  vm_compute in Hlen. discriminate.
Qed.

(** C5, amended. A [mark_screen] call whose [marks] is an array, handled on
    a defined drawing list, drops nothing: every descriptor, well-formed or
    not, is copied into a drawing that has every property of the descriptor
    unchanged and an [id], which is the descriptor's own [id] when it has
    one and the generated "ai-<clock>-<index>" otherwise; the drawings are
    appended in order through [updateDrawings], the handler completes, and
    one acknowledgment with the call's id and name is sent. *)
Theorem mark_screen_appends_every_mark
    (E : Env) (fc : FunctionCall) (w : World)
    (ms : list Obj) (cur : list Drawing) :
  fc_name fc = "mark_screen" ->
  fc_marks fc = Some ms ->
  drawingsRef (ann w) = Some cur ->
  let r := handle_call fc E w in
  let new := marks_from E (reads w) 0 ms in
  r.1 = Return tt /\
  ann r.2 = updateDrawings (cur ++ new) (ann w) /\
  drawingsRef (ann r.2) = Some (cur ++ new) /\
  length new = length ms /\
  (forall i m, ms !! i = Some m ->
     let generated := VStr (ai_id (Date_now E (reads w + i)) i) in
     exists d,
       new !! i = Some d /\
       d = m ∪ {[ "id" := generated ]} /\
       (forall k, k <> "id" -> d !! k = m !! k) /\
       d !! "id" = Some (default generated (m !! "id"))) /\
  trace r.2 = trace w ++
    [SendToolResponse (fc_id fc) (fc_name fc) "HUD marks deployed, Sir."].
Proof.
  intros Hn Hm Hc. simpl.
  rewrite (handle_mark_screen E fc w ms cur Hn Hm Hc). simpl.
  split; [done|]. split; [done|]. split; [done|].
  split; [apply marks_from_length|]. split; [|done].
  intros i m Hi. eexists. split; [by rewrite marks_from_lookup, Hi|].
  split; [done|]. split.
  - intros k Hk. rewrite lookup_union, lookup_singleton_ne by done.
    by destruct (m !! k).
  - rewrite lookup_union, lookup_singleton_eq. by destruct (m !! "id").
Qed.

Lemma mark_screen_appends_every_mark_witness :
  let own := <["id" := VStr "mine"]> circle_mark in
  let fc := mkFunctionCall "call-1" "mark_screen" (Some [own; bad_mark]) in
  let r := handle_call fc demoEnv initWorld in
  (exists d,
     marks_from demoEnv 0 0 [own; bad_mark] !! 0%nat = Some d /\
     d !! "id" = Some (VStr "mine")) /\
  (exists d,
     marks_from demoEnv 0 0 [own; bad_mark] !! 1%nat = Some d /\
     d !! "id" = Some (VStr "ai-1000-1")) /\
  trace r.2
  = [SendToolResponse "call-1" "mark_screen" "HUD marks deployed, Sir."].
Proof.
  intros own fc r.
  destruct (mark_screen_appends_every_mark demoEnv fc initWorld
              [own; bad_mark] [] eq_refl eq_refl eq_refl)
    as (_ & _ & _ & _ & Hmarks & Htrace).
  split; [|split; [|exact Htrace]].
  - destruct (Hmarks 0%nat own eq_refl) as (d & Hd & _ & _ & Hid).
    exists d. split; [exact Hd|exact Hid].
  - destruct (Hmarks 1%nat bad_mark eq_refl) as (d & Hd & _ & _ & Hid).
    exists d. split; [exact Hd|exact Hid].
Defined.

(** ** Generated ids *)

Lemma pretty_N_go_no_dash (x : N) (s : string) :
  no_dash s = true -> no_dash (pretty_N_go x s) = true.
Proof.
  revert s. induction (N.lt_wf_0 x) as [x _ IH]; intros s Hs.
  assert (x = 0 \/ 0 < x)%N as [->|Hpos] by lia.
  - by rewrite pretty_N_go_0.
  - rewrite pretty_N_go_step by done. apply IH.
    { by apply N.div_lt. }
    simpl. rewrite Hs, andb_true_r.
    unfold pretty_N_char. by repeat case_match.
Qed.

Lemma pretty_N_no_dash (x : N) : no_dash (pretty x) = true.
Proof.
  unfold pretty, pretty_N. case_decide; [done|].
  by apply pretty_N_go_no_dash.
Qed.

Lemma pretty_nat_no_dash (i : nat) : no_dash (pretty i) = true.
Proof. apply pretty_N_no_dash. Qed.

(** Two strings without a dash, each followed by a dash: the first dash
    tells where the first part ends. *)
Lemma split_at_dash (a a' b b' : string) :
  no_dash a = true -> no_dash a' = true ->
  a +:+ "-" +:+ b = a' +:+ "-" +:+ b' -> a = a' /\ b = b'.
Proof.
  revert a'. induction a as [|c a IH]; intros [|c' a'] Ha Ha' Heq.
  - change (String "-" b = String "-" b') in Heq.
    by injection Heq as ->.
  - change (String "-" b = String c' (a' +:+ "-" +:+ b')) in Heq.
    injection Heq as <- _. simpl in Ha'. done.
  - change (String c (a +:+ "-" +:+ b) = String "-" b') in Heq.
    injection Heq as -> _. simpl in Ha. done.
  - change (String c (a +:+ "-" +:+ b) = String c' (a' +:+ "-" +:+ b'))
      in Heq.
    injection Heq as -> Heq. simpl in Ha, Ha'.
    apply andb_true_iff in Ha as [_ Ha], Ha' as [_ Ha'].
    destruct (IH a' Ha Ha' Heq) as [-> ->]. done.
Qed.

Lemma ai_id_inj (t t' : N) (i i' : nat) :
  ai_id t i = ai_id t' i' -> t = t' /\ i = i'.
Proof.
  unfold ai_id. intros Heq. simpl in Heq. injection Heq as Heq.
  apply split_at_dash in Heq as [Ht Hi]; try apply pretty_N_no_dash.
  split; [by apply (inj pretty)|by apply (inj pretty)].
Qed.

Lemma ai_id_not_user_id (t t' : N) (i : nat) : ai_id t i <> user_id t'.
Proof. unfold ai_id, user_id. simpl. discriminate. Qed.

(** C9, evaluated. The same one-circle [mark_screen] call handled twice
    while the clock shows the same millisecond (here as two function calls
    of one message): each call appends one circle and is acknowledged, and
    the second drawing gets the id the first one already has. The id is
    built from the clock reading and the index within the call, so the
    first marks of two calls in one millisecond share it. *)
Lemma mark_id_repeats_within_a_millisecond :
  let fc := mkFunctionCall "call-1" "mark_screen" (Some [circle_mark]) in
  let m := mkMessage None (Some [fc; fc]) None None false false in
  let w1 := exec (handle_call fc) demoEnv initWorld in
  let w2 := exec (handle_call fc) demoEnv w1 in
  w2 = exec (onmessage m) demoEnv initWorld /\
  exists d1 d2,
    drawingsRef (ann w1) = Some [d1] /\
    drawingsRef (ann w2) = Some [d1; d2] /\
    d1 !! "id" = Some (VStr "ai-1000-0") /\
    d2 !! "id" = d1 !! "id".
Proof.
  split; [evaluate|].
  eexists _, _. repeat split; evaluate.
Qed.

(** What does hold of a one-circle call. A [mark_screen] call with the
    single mark {type: "circle", x: 500, y: 500, width: 50}, handled on a
    defined drawing list, appends exactly one drawing: type circle, x 500,
    y 500, width 50 and the id "ai-<clock>-0", where <clock> is the clock
    reading taken for the mark; one acknowledgment with the call's id is
    sent. The id differs from every listed id that was drawn with the
    pointer or generated at another clock reading or another index. *)
Theorem circle_mark_appends_one_circle
    (E : Env) (fc : FunctionCall) (w : World) (cur : list Drawing) :
  fc_name fc = "mark_screen" ->
  fc_marks fc = Some [circle_mark] ->
  drawingsRef (ann w) = Some cur ->
  let now := Date_now E (reads w) in
  let w' := exec (handle_call fc) E w in
  exists d,
    drawingsRef (ann w') = Some (cur ++ [d]) /\
    drawings (ann w') = Some (cur ++ [d]) /\
    d !! "type" = Some (VStr "circle") /\
    d !! "x" = Some (VNum 500) /\
    d !! "y" = Some (VNum 500) /\
    d !! "width" = Some (VNum 50) /\
    d !! "id" = Some (VStr (ai_id now 0)) /\
    dom d = {[ "id"; "type"; "x"; "y"; "width" ]} /\
    trace w' = trace w ++
      [SendToolResponse (fc_id fc) (fc_name fc) "HUD marks deployed, Sir."] /\
    (forall c s, c ∈ cur -> c !! "id" = Some (VStr s) ->
       generated_elsewhere now s -> c !! "id" <> d !! "id").
Proof.
  intros Hn Hm Hc. simpl. unfold exec.
  rewrite (handle_mark_screen E fc w [circle_mark] cur Hn Hm Hc).
  cbn [snd marks_from app length].
  eexists. split; [reflexivity|]. split; [reflexivity|].
  assert (Hid : (circle_mark ∪ {["id" := VStr (ai_id (Date_now E (reads w)) 0)]}
                 : Obj) !! "id"
                = Some (VStr (ai_id (Date_now E (reads w)) 0))).
  { apply lookup_union_Some_raw. right. split; [evaluate|].
    apply lookup_singleton_eq. }
  assert (Hfield : forall k v, (circle_mark : Obj) !! k = Some v ->
            (circle_mark ∪ {["id" := VStr (ai_id (Date_now E (reads w)) 0)]}
             : Obj) !! k = Some v).
  { intros k v Hk. apply lookup_union_Some_raw. by left. }
  split; [by apply Hfield|]. split; [by apply Hfield|].
  split; [by apply Hfield|]. split; [by apply Hfield|].
  split; [exact Hid|]. split; [|split; [done|]].
  - rewrite dom_union_L, dom_singleton_L.
    assert (Hdom : dom circle_mark
                   = ({[ "type"; "x"; "y"; "width" ]} : gset string))
      by evaluate.
    rewrite Hdom. set_solver.
  - intros c s Hin Hs Hgen Hsame. rewrite Hs, Hid in Hsame.
    assert (Heq : s = ai_id (Date_now E (reads w)) 0) by congruence.
    clear Hsame Hs. destruct Hgen as [t i Ht|t].
    + apply ai_id_inj in Heq as [Heq1 Heq2]. by destruct Ht.
    + symmetry in Heq. by apply ai_id_not_user_id in Heq.
Qed.

Lemma circle_mark_appends_one_circle_witness :
  let fc := mkFunctionCall "call-1" "mark_screen" (Some [circle_mark]) in
  exists d,
    drawingsRef (ann (exec (handle_call fc) demoEnv initWorld)) = Some [d] /\
    d !! "id" = Some (VStr "ai-1000-0").
Proof.
  destruct (circle_mark_appends_one_circle demoEnv
              (mkFunctionCall "call-1" "mark_screen" (Some [circle_mark]))
              initWorld [] eq_refl eq_refl eq_refl)
    as (d & Hd & _ & _ & _ & _ & _ & Hid & _).
  exists d. split; [exact Hd|exact Hid].
Defined.

(** ** Captions *)

Lemma audio_output_frame E m w :
  let w' := (audio_output m E w).2 in
  ann w' = ann w /\ sess w' = sess w /\ cap w' = cap w /\ hud w' = hud w /\
  timers w' = timers w /\ reads w' = reads w.
Proof.
  unfold audio_output, set_nextStartTime. rewrite bind_get.
  destruct (audioData m) as [data|]; [|done].
  destruct (outputAudioCtxRef (audio w)); [|done].
  destruct (outputAnalyserRef (audio w)); [|done].
  destruct (String.eqb data ""); [done|].
  eff_run. destruct (decodeAudioData E data); eff_run; done.
Qed.

Lemma run_timeout_due E w rest :
  take_due (timeNow E) (timers w) = Some rest ->
  cap (exec run_timeout E w)
    = mkCaptions (mkTranscript "" "") (mkTranscript "" "") /\
  timers (exec run_timeout E w) = rest.
Proof.
  intros Hd. unfold exec, run_timeout, clear_callback.
  rewrite bind_ask, bind_get, Hd. by eff_run.
Qed.

(** The timers after a message: text alone never removes one, and a
    turn-complete adds one. *)
Lemma onmessage_timers E m w :
  exists added,
    timers (exec (onmessage m) E w) = timers w ++ added /\
    ((onmessage m E w).1 = Return tt ->
     added = (if turnComplete m then [timeNow E + clear_delay] else []) /\
     cap (exec (onmessage m) E w) = captions_after m (cap w)).
Proof.
  unfold exec, onmessage. rewrite bind_unfold.
  destruct (audio_output_frame E m w) as (_ & _ & Hc0 & _ & Ht0 & _).
  destruct (audio_output m E w) as [[[]|] w0]; simpl in *.
  2: { exists []. rewrite app_nil_r. done. }
  rewrite bind_unfold.
  destruct (tool_handling_frame E m w0) as (_ & _ & Hc1 & _ & _ & Ht1 & _).
  destruct (tool_handling m E w0) as [[[]|] w1]; simpl in *.
  2: { exists []. rewrite app_nil_r. split; [congruence|done]. }
  rewrite bind_unfold, transcription_handling_spec, interruption_spec.
  simpl. eexists. split.
  - destruct (interrupted m); simpl; rewrite Ht1, Ht0; reflexivity.
  - intros _. split; [done|].
    destruct (interrupted m); simpl; by rewrite Hc1, Hc0.
Qed.

(** C6, as stated, fails. A turn completes at time 0; the user's next words
    arrive at time 1000; the timeout set at time 0 is still pending then,
    and when it runs at time 6000 it wipes the words that arrived after the
    turn-complete. *)
Lemma pending_clear_wipes_new_text :
  let done_ := mkMessage None None None (Some (Some "Done, Sir."))
                         true false in
  let more := mkMessage None None (Some (Some "one more thing")) None
                        false false in
  let w1 := run [(at_time 0 demoEnv, EvMessage done_)] initWorld in
  let w2 := run [(at_time 1000 demoEnv, EvMessage more)] w1 in
  let w3 := run [(at_time 6000 demoEnv, EvTimeout)] w2 in
  timers w1 = [6000] /\
  timers w2 = [6000] /\
  transcriptionRef (cap w2) = mkTranscript "one more thing" "Done, Sir." /\
  transcriptionRef (cap w3) = mkTranscript "" "" /\
  transcription (cap w3) = mkTranscript "" "".
Proof. evaluate. Qed.

Lemma take_due_elem now ts t :
  t ∈ ts -> t <= now -> is_Some (take_due now ts).
Proof.
  intros Hin Ht. induction ts as [|t0 ts IH]; simpl.
  - by apply elem_of_nil in Hin.
  - destruct (t0 <=? now) eqn:H0; [eauto|].
    apply elem_of_cons in Hin as [->|Hin].
    + apply Z.leb_le in Ht. congruence.
    + destruct (IH Hin) as [r ->]. eauto.
Qed.

Lemma take_due_length now ts rest :
  take_due now ts = Some rest -> length ts = S (length rest).
Proof.
  revert rest. induction ts as [|t0 ts IH]; intros rest; simpl; [done|].
  destruct (t0 <=? now).
  - by intros [= ->].
  - destruct (take_due now ts) as [r|]; [|done].
    intros [= <-]. simpl. by rewrite (IH r).
Qed.

(** C6, amended. A turn-complete sets a timeout that clears both caption
    buffers 6000 ms later, and nothing cancels or supersedes it. Text that
    arrives before the delay has elapsed is appended and leaves every
    pending timeout in place; when the timeout set by the turn-complete is
    due and runs, both buffers are emptied, the later text included. Every
    turn-complete adds a timeout of its own. *)
Theorem clear_timeout_is_never_cancelled
    (E E' E'' : Env) (m m' : Message) (w : World) :
  (onmessage m E w).1 = Return tt ->
  turnComplete m = true ->
  let w1 := exec (onmessage m) E w in
  let w2 := exec (onmessage m') E' w1 in
  let w3 := exec run_timeout E'' w2 in
  timers w1 = timers w ++ [timeNow E + clear_delay] /\
  (exists added, timers w2 = timers w1 ++ added) /\
  ((onmessage m' E' w1).1 = Return tt ->
   turnComplete m' = false ->
   timers w2 = timers w1 /\ cap w2 = captions_after m' (cap w1)) /\
  (timeNow E + clear_delay <= timeNow E'' ->
   cap w3 = mkCaptions (mkTranscript "" "") (mkTranscript "" "") /\
   length (timers w2) = S (length (timers w3))).
Proof.
  intros Hret Htc. simpl.
  destruct (onmessage_timers E m w) as (added & Ht1 & Hadd).
  destruct (Hadd Hret) as [-> _]. rewrite Htc in Ht1.
  destruct (onmessage_timers E' m' (exec (onmessage m) E w))
    as (added' & Ht2 & Hadd').
  split; [done|]. split; [by exists added'|]. split.
  - intros Hret' Htc'. destruct (Hadd' Hret') as [-> Hc].
    rewrite Htc' in Ht2. rewrite app_nil_r in Ht2. done.
  - intros Hdue.
    destruct (take_due_elem (timeNow E'')
                (timers (exec (onmessage m') E' (exec (onmessage m) E w)))
                (timeNow E + clear_delay)) as [rest Hrest]; [|done|].
    { rewrite Ht2, Ht1. apply elem_of_app. left. apply elem_of_app. right.
      by apply list_elem_of_singleton. }
    destruct (run_timeout_due E'' _ rest Hrest) as [Hc Ht3].
    split; [done|]. rewrite Ht3. exact (take_due_length _ _ _ Hrest).
Qed.

Lemma clear_timeout_is_never_cancelled_witness :
  let done_ := mkMessage None None None (Some (Some "Done, Sir."))
                         true false in
  let more := mkMessage None None (Some (Some "one more thing")) None
                        false false in
  let w2 := exec (onmessage more) (at_time 1000 demoEnv)
                 (exec (onmessage done_) (at_time 0 demoEnv) initWorld) in
  cap (exec run_timeout (at_time 6000 demoEnv) w2)
  = mkCaptions (mkTranscript "" "") (mkTranscript "" "").
Proof.
  refine (proj1 (proj2 (proj2 (proj2
    (clear_timeout_is_never_cancelled
       (at_time 0 demoEnv) (at_time 1000 demoEnv) (at_time 6000 demoEnv)
       (mkMessage None None None (Some (Some "Done, Sir.")) true false)
       (mkMessage None None (Some (Some "one more thing")) None false false)
       initWorld eq_refl eq_refl))) _)).
  vm_compute. discriminate.
Defined.

(** ** Pointer interaction *)

Lemma handleMouseDown_spec E e w :
  handleMouseDown e E w
  = (Return tt,
     if isActive (sess w)
     then with_hud (fun h =>
            let pos := mkPoint (clientX e / innerWidth E * 1000)%Q
                               (clientY e / innerHeight E * 1000)%Q in
            mkHud true (Some pos) [pos] (previewDrawing h)) w
     else w).
Proof.
  unfold handleMouseDown, getNormalizedPos. rewrite bind_get.
  by destruct (isActive (sess w)).
Qed.

Lemma handleMouseUp_no_preview E w :
  previewDrawing (hud w) = None ->
  handleMouseUp E w
  = (Return tt,
     with_hud (fun h => mkHud false None (currentPoints h) (previewDrawing h))
              w).
Proof.
  intros Hp. unfold handleMouseUp. rewrite bind_get, Hp.
  by destruct (isDrawing (hud w)).
Qed.

(** What does hold of a bare click. When no preview drawing exists, a
    mouse-down followed at once by a mouse-up (no mouse-move in between)
    commits nothing: the annotation state (drawing list, history stack and
    cursor, with their mirrors) is the one from before the click,
    [updateDrawings] is not called, no request is made, the clock is not
    read, and the pointer state is back to idle with no preview. *)
Theorem bare_click_commits_nothing
    (E1 E2 : Env) (e : MouseEvent) (w : World) :
  previewDrawing (hud w) = None ->
  let w1 := exec (handleMouseDown e) E1 w in
  let w2 := exec handleMouseUp E2 w1 in
  (handleMouseUp E2 w1).1 = Return tt /\
  ann w2 = ann w /\
  trace w2 = trace w /\
  reads w2 = reads w /\
  isDrawing (hud w2) = false /\
  startPoint (hud w2) = None /\
  previewDrawing (hud w2) = None.
Proof.
  intros Hp. unfold exec. rewrite handleMouseDown_spec.
  cbn [snd].
  set (w1 := if isActive (sess w) then _ else w).
  assert (Hp1 : previewDrawing (hud w1) = None)
    by (unfold w1; by destruct (isActive (sess w))).
  assert (Hsame : ann w1 = ann w /\ trace w1 = trace w /\ reads w1 = reads w)
    by (unfold w1; by destruct (isActive (sess w))).
  destruct Hsame as (Ha & Ht & Hr).
  rewrite (handleMouseUp_no_preview E2 w1 Hp1). cbn [fst snd].
  split; [done|]. split; [exact Ha|]. split; [exact Ht|].
  split; [exact Hr|]. split; [done|]. split; [done|]. exact Hp1.
Qed.

Lemma bare_click_commits_nothing_witness :
  let e := mkMouseEvent 200 300 in
  ann (exec handleMouseUp demoEnv (exec (handleMouseDown e) demoEnv started))
  = ann started.
Proof.
  apply (bare_click_commits_nothing demoEnv demoEnv (mkMouseEvent 200 300)
           started).
  reflexivity.
Defined.

(** C10, evaluated. A press arrives while an earlier drag is still in
    progress (its release never reached the component, or a second button
    is pressed): [handleMouseDown] starts the new gesture, resetting the
    start point and the sampled points, but leaves the preview of the
    earlier drag in place. The release that follows at once, with no move
    in between, finds that preview and commits it: one drawing is appended,
    anchored where the earlier drag began, and one history snapshot is
    pushed. *)
Theorem second_press_commits_stale_preview :
  let earlier := [(demoEnv, EvMouseDown (mkMouseEvent 200 300));
                  (demoEnv, EvMouseMove (mkMouseEvent 250 300))] in
  let w := run earlier started in
  let w1 := exec (handleMouseDown (mkMouseEvent 600 600)) demoEnv w in
  let w2 := exec handleMouseUp demoEnv w1 in
  drawingsRef (ann w) = Some [] /\
  historyIndexRef (ann w) = -1 /\
  startPoint (hud w1) = Some (normalized demoEnv (mkMouseEvent 600 600)) /\
  currentPoints (hud w1) = [normalized demoEnv (mkMouseEvent 600 600)] /\
  previewDrawing (hud w1) = previewDrawing (hud w) /\
  (exists d,
     drawingsRef (ann w2) = Some [d] /\
     d !! "id" = Some (VStr "user-1000") /\
     d !! "x" = Some (VNum (px (normalized demoEnv (mkMouseEvent 200 300)))) /\
     d !! "y" = Some (VNum (py (normalized demoEnv (mkMouseEvent 200 300))))) /\
  length (historyRef (ann w2)) = 1%nat /\
  historyIndexRef (ann w2) = 0.
Proof.
  intros earlier w w1 w2.
  split; [evaluate|]. split; [evaluate|]. split; [evaluate|].
  split; [evaluate|]. split; [evaluate|]. split; [|split; evaluate].
  assert (Hd : exists d, drawingsRef (ann w2) = Some [d]).
  { destruct (drawingsRef (ann w2)) as [[|d [|d' l]]|] eqn:Hds;
      [exfalso| |exfalso|exfalso].
    2: by exists d.
    all: assert (Hlen : length <$> drawingsRef (ann w2) = Some 1%nat)
           by evaluate;
         rewrite Hds in Hlen; discriminate. }
  destruct Hd as [d Hd]. exists d. split; [exact Hd|].
  assert (Hfield : forall k : string,
            match drawingsRef (ann w2) with
            | Some [d0] => d0 !! k
            | _ => None
            end = d !! k) by (by rewrite Hd).
  rewrite <- !Hfield. split; [evaluate|]. split; evaluate.
Qed.

(** With a move in between, a press and release do commit a drawing. *)
Example drag_commits_a_drawing :
  let w := run [(demoEnv, EvMouseDown (mkMouseEvent 200 300));
                (demoEnv, EvMouseMove (mkMouseEvent 250 300));
                (demoEnv, EvMouseUp)] started in
  length <$> drawingsRef (ann w) = Some 1%nat /\
  historyIndexRef (ann w) = 0.
Proof. evaluate. Qed.

Lemma startJarvis_hud E w : hud (exec startJarvis E w) = hud w.
Proof.
  unfold exec, startJarvis, try_catch, acquire.
  rewrite bind_modify, bind_unfold, bind_ask.
  destruct (getDisplayMedia E); simpl.
  - rewrite bind_unfold, bind_ask.
    destruct (getUserMedia E); simpl; [done|].
    rewrite bind_ask, bind_modify, cleanup_spec. done.
  - rewrite bind_ask, bind_modify, cleanup_spec. done.
Qed.

Lemma onmessage_hud E m w : hud (exec (onmessage m) E w) = hud w.
Proof.
  unfold exec, onmessage. rewrite bind_unfold.
  destruct (audio_output_frame E m w) as (_ & _ & _ & Hh0 & _).
  destruct (audio_output m E w) as [[[]|] w0]; simpl in *; [|done].
  rewrite bind_unfold.
  destruct (tool_handling_frame E m w0) as (_ & _ & _ & Hh1 & _).
  destruct (tool_handling m E w0) as [[[]|] w1]; simpl in *; [|congruence].
  rewrite bind_unfold, transcription_handling_spec, interruption_spec.
  simpl. destruct (interrupted m); simpl; congruence.
Qed.

Lemma step_pointer_ok w ev : pointer_ok w -> pointer_ok (step w ev).
Proof.
  destruct ev as [E ev]. unfold pointer_ok, step. cbn [fst snd].
  intros Hok.
  destruct ev; cbn [handler].
  - by rewrite startJarvis_hud.
  - done.
  - by rewrite onmessage_hud.
  - unfold exec, onerror. rewrite bind_ask, bind_modify, cleanup_spec. done.
  - unfold onclose. by rewrite exec_cleanup.
  - by rewrite exec_cleanup.
  - by rewrite exec_cleanup.
  - done.
  - done.
  - done.
  - unfold exec. rewrite handleMouseDown_spec. cbn [snd].
    by destruct (isActive (sess w)).
  - unfold exec, handleMouseMove, getNormalizedPos. rewrite bind_get.
    destruct (isDrawing (hud w)) eqn:Hd; [|by auto].
    destruct (startPoint (hud w)); eff_run; by rewrite Hd.
  - destruct (previewDrawing (hud w)) as [preview|] eqn:Hp.
    + unfold exec, handleMouseUp. rewrite bind_get, Hp.
      destruct (isDrawing (hud w)) eqn:Hd; [|by specialize (Hok eq_refl)].
      rewrite bind_DateNow.
      destruct (drawings (ann w)); eff_run; [done|]. by rewrite Hd.
    + unfold exec. by rewrite handleMouseUp_no_preview.
  - done.
  - unfold exec, run_timeout, clear_callback. rewrite bind_ask, bind_get.
    by destruct (take_due _ _).
Qed.

(** X15. Whenever the pointer is up there is no preview drawing, in every
    world the events can reach: a preview exists only while a press is
    being held, and every release (committing or not) leaves none. *)
Lemma pointer_up_means_no_preview (evs : list (Env * Event)) :
  pointer_ok (run evs initWorld).
Proof.
  unfold run. induction evs as [|ev evs IH] using rev_ind.
  - done.
  - rewrite foldl_app. simpl. by apply step_pointer_ok.
Qed.

(** So a bare click made while the pointer is up commits nothing, in
    every world the events can reach. *)
Lemma click_with_pointer_up_commits_nothing
    (evs : list (Env * Event)) (E1 E2 : Env) (e : MouseEvent) :
  let w := run evs initWorld in
  isDrawing (hud w) = false ->
  let w2 := exec handleMouseUp E2 (exec (handleMouseDown e) E1 w) in
  ann w2 = ann w /\ trace w2 = trace w /\ previewDrawing (hud w2) = None.
Proof.
  intros w Hup.
  assert (Hok : pointer_ok w).
  { unfold w, run. clear Hup.
    induction evs as [|ev evs IH] using rev_ind; [done|].
    rewrite foldl_app. simpl. by apply step_pointer_ok. }
  destruct (bare_click_commits_nothing E1 E2 e w (Hok Hup))
    as (_ & Ha & Ht & _ & _ & _ & Hp).
  done.
Qed.

(** ** Worked runs of the scheduler *)

Lemma started_has_output : has_output started.
Proof. split; by eexists. Defined.

Lemma chunks_start_back_to_back_witness :
  starts (trace (run (messages [(at_clock 5 demoEnv, audio_msg "abc");
                                (at_clock 6 demoEnv, audio_msg "hello")])
                     started))
  = [5; 8].
Proof.
  refine (proj1 (chunks_start_back_to_back started
    [(at_clock 5 demoEnv, audio_msg "abc");
     (at_clock 6 demoEnv, audio_msg "hello")] [3; 5]
    started_has_output _)).
  repeat constructor.
Defined.

Lemma interruption_flushes_playback_witness :
  let playing := exec (onmessage (audio_msg "abcdefgh")) demoEnv started in
  let w1 := exec (onmessage interrupt_msg) (stops_raise demoEnv) playing in
  (sourcesRef (audio playing) = [0%nat] /\
   nextStartTimeRef (audio playing) = 8) /\
  (trace w1 = trace playing ++ [SourceStop 0%nat] /\
   sourcesRef (audio w1) = []) /\
  starts (trace (exec (onmessage (audio_msg "xy")) (at_clock 2 demoEnv) w1))
  = [0; 2].
Proof.
  pose proof (interruption_flushes_playback
    (stops_raise demoEnv) (at_clock 2 demoEnv) interrupt_msg (audio_msg "xy")
    (exec (onmessage (audio_msg "abcdefgh")) demoEnv started) 2
    eq_refl eq_refl eq_refl) as (Htrace & Hset & _ & Hnext).
  split; [split; reflexivity|].
  split; [split; [exact Htrace|exact Hset]|].
  apply Hnext.
  - split; by eexists.
  - reflexivity.
  - vm_compute. discriminate.
Defined.

(** * Further properties of the code *)

(** ** Undo, redo and the buttons that call them *)

Lemma js_index_in_range {A} (l : list A) (i : Z) :
  0 <= i < Z.of_nat (length l) -> is_Some (js_index l i).
Proof.
  intros Hi. unfold js_index. destruct (i <? 0) eqn:Hneg; [lia|].
  apply lookup_lt_is_Some. lia.
Qed.

Lemma js_index_take {A} (l : list A) (n : nat) (i : Z) :
  i < Z.of_nat n -> js_index (take n l) i = js_index l i.
Proof.
  intros Hi. unfold js_index. destruct (i <? 0) eqn:Hneg; [done|].
  apply lookup_take_lt. lia.
Qed.

Lemma ann_wf_init : ann_wf initAnnotations.
Proof. unfold ann_wf, history_ok. simpl. repeat split; lia. Qed.

Lemma updateDrawings_wf (d : list Drawing) (a : Annotations) :
  ann_wf a -> ann_wf (updateDrawings d a).
Proof.
  intros ([Hlen Hidx] & _).
  destruct (updateDrawings_ok d a Hlen) as [Hok Hcur].
  split; [exact Hok|]. split; [|done].
  rewrite Hcur.
  destruct (historyIndexRef (updateDrawings d a) =? -1) eqn:Hneg; [|done].
  destruct Hok as [_ Hrange]. rewrite updateDrawings_cursor in Hneg, Hrange.
  unfold js_index in Hcur. rewrite updateDrawings_cursor in Hcur.
  destruct (_ <? 0) eqn:H0 in Hcur; [done|]. lia.
Qed.

Lemma undo_wf (a : Annotations) : ann_wf a -> ann_wf (undo a).
Proof.
  intros (Hok & Hcoh & Hd & Hh & Hi).
  split; [by apply undo_ok|]. revert Hcoh Hd Hh Hi. unfold undo.
  destruct (historyIndexRef a >? 0) eqn:H1; simpl.
  - intros. assert (Hne : (historyIndexRef a - 1 =? -1) = false) by lia.
    by rewrite Hne.
  - destruct (historyIndexRef a =? 0) eqn:H2; simpl; done.
Qed.

Lemma redo_wf (a : Annotations) : ann_wf a -> ann_wf (redo a).
Proof.
  intros (Hok & Hcoh & Hd & Hh & Hi).
  split; [by apply redo_ok|]. revert Hcoh Hd Hh Hi. unfold redo.
  destruct (historyIndexRef a <? _) eqn:H1; simpl; [|done].
  intros. destruct Hok as [_ Hr].
  assert (Hne : (historyIndexRef a + 1 =? -1) = false) by lia.
  by rewrite Hne.
Qed.

(** X1. Round trip: in a well-formed annotation state with something to
    undo (cursor at 0 or above), [undo] followed by [redo] gives back the
    state exactly: drawing list, history stack, cursor and their mirrors. *)
Theorem redo_after_undo (a : Annotations) :
  ann_wf a -> 0 <= historyIndexRef a -> redo (undo a) = a.
Proof.
  destruct a as [d h hi dr hr hir].
  intros ([Hlen Hr] & Hcoh & Hd & Hh & Hi) Hpos. simpl in *. subst d h hi.
  assert (Hne : (hir =? -1) = false) by lia. rewrite Hne in Hcoh.
  subst dr. unfold undo. cbn [historyIndexRef historyRef history].
  destruct (hir >? 0) eqn:H1.
  - unfold redo. cbn [historyIndexRef historyRef history].
    assert (Hlt : (hir - 1 <? Z.of_nat (length hr) - 1) = true) by lia.
    rewrite Hlt. by replace (hir - 1 + 1) with hir by lia.
  - assert (hir = 0) as -> by lia.
    unfold redo. cbn [Z.eqb historyIndexRef historyRef history].
    assert (Hlt : (-1 <? Z.of_nat (length hr) - 1) = true) by lia.
    by rewrite Hlt.
Qed.

Lemma redo_after_undo_witness :
  let a := applyCalls [[circle_mark]; [circle_mark; bad_mark]]
                      initAnnotations in
  redo (undo a) = a.
Proof.
  apply redo_after_undo.
  - apply updateDrawings_wf, updateDrawings_wf, ann_wf_init.
  - vm_compute. discriminate.
Defined.

(** X2. Round trip the other way: in a well-formed annotation state with
    something to redo (cursor below the last snapshot), [redo] followed by
    [undo] gives back the state exactly. *)
Theorem undo_after_redo (a : Annotations) :
  ann_wf a ->
  historyIndexRef a < Z.of_nat (length (historyRef a)) - 1 ->
  undo (redo a) = a.
Proof.
  destruct a as [d h hi dr hr hir].
  intros ([Hlen Hr] & Hcoh & Hd & Hh & Hi) Hlt. simpl in *. subst d h hi.
  unfold redo. simpl.
  assert (Hb : (hir <? Z.of_nat (length hr) - 1) = true) by lia.
  rewrite Hb. unfold undo. simpl.
  destruct (hir + 1 >? 0) eqn:H1.
  - replace (hir + 1 - 1) with hir by lia.
    assert (Hne : (hir =? -1) = false) by lia. rewrite Hne in Hcoh.
    by rewrite <- Hcoh.
  - assert (hir = -1) as -> by lia. cbn in *. by rewrite Hcoh.
Qed.

Lemma undo_after_redo_witness :
  let a := undo (applyCalls [[circle_mark]; [circle_mark; bad_mark]]
                            initAnnotations) in
  undo (redo a) = a.
Proof.
  apply undo_after_redo.
  - apply undo_wf, updateDrawings_wf, updateDrawings_wf, ann_wf_init.
  - vm_compute. reflexivity.
Defined.

Lemma undo_step (a : Annotations) :
  ann_wf a ->
  (historyIndexRef a = -1 -> undo a = a /\ drawingsRef a = Some []) /\
  (0 <= historyIndexRef a ->
     historyIndexRef (undo a) = historyIndexRef a - 1).
Proof.
  intros ([Hlen Hr] & Hcoh & _). split.
  - intros Hi. rewrite Hi in Hcoh. simpl in Hcoh. split; [|done].
    unfold undo. rewrite Hi. done.
  - intros Hpos. unfold undo. destruct (historyIndexRef a >? 0) eqn:H1; [done|].
    assert (Hz : historyIndexRef a = 0) by lia. rewrite Hz. done.
Qed.

(** X3. Undo reaches the bottom and stays there: from a well-formed state,
    any number of [undo] steps that is at least cursor + 1 (for instance as
    many as there are snapshots) ends with the cursor at -1 and the empty
    drawing list, and the history stack is the one it started with. *)
Theorem undo_reaches_bottom (n : nat) (a : Annotations) :
  ann_wf a ->
  historyIndexRef a + 1 <= Z.of_nat n ->
  historyIndexRef (Nat.iter n undo a) = -1 /\
  drawingsRef (Nat.iter n undo a) = Some [] /\
  historyRef (Nat.iter n undo a) = historyRef a.
Proof.
  revert a. induction n as [|n IH]; intros a Hwf Hn.
  - simpl. destruct Hwf as ([_ Hr] & Hcoh & _).
    assert (Hi : historyIndexRef a = -1) by lia.
    rewrite Hi in Hcoh. done.
  - rewrite Nat.iter_succ_r.
    destruct (undo_step a Hwf) as [Hbot Hdec].
    assert (Hh : historyRef (undo a) = historyRef a).
    { unfold undo. destruct (_ >? 0); [done|]. by destruct (_ =? 0). }
    destruct (Z.eq_dec (historyIndexRef a) (-1)) as [Hi|Hi].
    + destruct (Hbot Hi) as [-> _]. apply IH; [done|lia].
    + assert (Hr : -1 <= historyIndexRef a) by (destruct Hwf as ([_ ?] & _); lia).
      destruct (IH (undo a)) as (H1 & H2 & H3).
      * by apply undo_wf.
      * rewrite Hdec; lia.
      * by rewrite H3, Hh.
Qed.

Lemma undo_reaches_bottom_witness :
  let a := applyCalls [[circle_mark]; [circle_mark; bad_mark]; []]
                      initAnnotations in
  drawingsRef (Nat.iter 3 undo a) = Some [].
Proof.
  apply (undo_reaches_bottom 3
           (applyCalls [[circle_mark]; [circle_mark; bad_mark]; []]
                       initAnnotations)).
  - apply updateDrawings_wf, updateDrawings_wf, updateDrawings_wf, ann_wf_init.
  - vm_compute. discriminate.
Defined.

(** X4. The buttons tell the truth. In a well-formed annotation state,
    [canUndo] is false exactly when [undo] would change nothing and
    [canRedo] is false exactly when [redo] would change nothing; when
    enabled, each moves the cursor by exactly one. *)
Theorem buttons_match_actions (a : Annotations) :
  ann_wf a ->
  (canUndo a = false <-> undo a = a) /\
  (canRedo a = false <-> redo a = a) /\
  (canUndo a = true -> historyIndexRef (undo a) = historyIndexRef a - 1) /\
  (canRedo a = true -> historyIndexRef (redo a) = historyIndexRef a + 1).
Proof.
  intros Hwf. destruct (undo_step a Hwf) as [Hbot Hdec].
  destruct Hwf as ([Hlen Hr] & Hcoh & Hd & Hh & Hi).
  unfold canUndo, canRedo. rewrite Hh, Hi.
  split; [|split; [|split]].
  - split.
    + intros Hc. apply Hbot. lia.
    + intros Hsame. destruct (historyIndexRef a >=? 0) eqn:Hge; [|done].
      assert (Hpos : 0 <= historyIndexRef a) by lia.
      specialize (Hdec Hpos). rewrite Hsame in Hdec. lia.
  - unfold redo.
    destruct (historyIndexRef a <? Z.of_nat (length (historyRef a)) - 1)
      eqn:Hlt; split; try done.
    intros Hsame.
    assert (Hidx : historyIndexRef
              {| drawings := js_index (historyRef a) (historyIndexRef a + 1);
                 history := history a;
                 historyIndex := historyIndexRef a + 1;
                 drawingsRef := js_index (historyRef a) (historyIndexRef a + 1);
                 historyRef := historyRef a;
                 historyIndexRef := historyIndexRef a + 1 |}
              = historyIndexRef a) by (by rewrite Hsame).
    simpl in Hidx. lia.
  - intros Hc. apply Hdec. lia.
  - intros Hc. unfold redo. by rewrite Hc.
Qed.

Lemma buttons_match_actions_witness :
  let a := applyCalls [[circle_mark]] initAnnotations in
  (canUndo a = true /\ canRedo a = false) /\
  redo a = a /\ historyIndexRef (undo a) = -1.
Proof.
  pose proof (buttons_match_actions
    (applyCalls [[circle_mark]] initAnnotations)
    (updateDrawings_wf _ _ ann_wf_init)) as (_ & Hredo & Hundo & _).
  split; [split; reflexivity|].
  split; [exact (proj1 Hredo eq_refl)|exact (Hundo eq_refl)].
Defined.

Lemma push_then_undo (d : list Drawing) (a : Annotations) :
  ann_wf a ->
  let a' := updateDrawings d a in
  canUndo a' = true /\ canRedo a' = false /\
  drawingsRef (undo a') = drawingsRef a /\
  drawings (undo a') = drawingsRef a.
Proof.
  intros Hwf a'.
  assert (Hwf' : ann_wf a') by (by apply updateDrawings_wf).
  assert (Hwfu : ann_wf (undo a')) by (by apply undo_wf).
  destruct Hwf as ([Hlen Hr] & Hcoh & Hd & Hh & Hi).
  destruct Hwf' as ([Hlen' Hr'] & Hcoh' & Hd' & Hh' & Hi').
  assert (Hcur : historyIndexRef a' = Z.of_nat (length (historyRef a')) - 1)
    by apply updateDrawings_cursor.
  assert (Hpos : 0 <= historyIndexRef a').
  { destruct (updateDrawings_ok d a Hlen) as [_ Hc]. fold a' in Hc.
    unfold js_index in Hc. destruct (_ <? 0) eqn:H0 in Hc; [done|]. lia. }
  unfold canUndo, canRedo. rewrite Hh', Hi'.
  split; [lia|]. split; [lia|].
  assert (Hgoal : drawingsRef (undo a') = drawingsRef a); [|split; [done|]].
  2: { rewrite <- Hgoal. by destruct Hwfu as (_ & _ & Hm & _). }
  (* the history after the push, by cases on eviction *)
  set (kept := js_slice (historyRef a) 0 (historyIndexRef a + 1)) in *.
  assert (Hkept : kept = take (Z.to_nat (historyIndexRef a + 1)) (historyRef a))
    by (apply js_slice_prefix; lia).
  assert (Hklen : Z.of_nat (length kept) = historyIndexRef a + 1).
  { rewrite Hkept, length_take. lia. }
  assert (Hhist : historyRef a' = if 50 <? Z.of_nat (length (kept ++ [d]))
                                  then js_shift (kept ++ [d]) else kept ++ [d]).
  { unfold a', updateDrawings. cbn [historyRef]. fold kept.
    by rewrite Z.gtb_ltb. }
  rewrite length_app in Hhist. cbn [length] in Hhist.
  clearbody kept a'.
  assert (Hlook : forall i, 0 <= i <= historyIndexRef a ->
            js_index (kept ++ [d]) i = js_index (historyRef a) i).
  { intros i Hi0. unfold js_index. destruct (i <? 0) eqn:Hneg; [done|].
    rewrite lookup_app_l by lia. rewrite Hkept. apply lookup_take_lt. lia. }
  assert (Hprev : 0 <= historyIndexRef a ->
            drawingsRef a = js_index (kept ++ [d]) (historyIndexRef a)).
  { intros H0. rewrite Hlook by lia. rewrite Hcoh.
    destruct (historyIndexRef a =? -1) eqn:Hm; [|done].
    apply Z.eqb_eq in Hm. lia. }
  destruct (50 <? Z.of_nat (length kept + 1)) eqn:Hbig.
  - (* eviction: 50 snapshots were kept, the cursor was at 49 *)
    apply Z.ltb_lt in Hbig.
    destruct kept as [|k0 kept']; [simpl in Hbig; lia|].
    cbn [js_shift tail app length] in *.
    assert (Hidx' : historyIndexRef a' = Z.of_nat (length kept')).
    { rewrite Hcur, Hhist, length_app. cbn [length]. lia. }
    unfold undo. rewrite Hidx'.
    destruct (Z.of_nat (length kept') >? 0) eqn:Hgt.
    + cbn [drawingsRef]. rewrite Hprev by lia. rewrite Hhist.
      unfold js_index.
      destruct (Z.of_nat (length kept') - 1 <? 0) eqn:Hn1;
        [apply Z.ltb_lt in Hn1; rewrite Z.gtb_ltb in Hgt;
         apply Z.ltb_lt in Hgt; lia|].
      destruct (historyIndexRef a <? 0) eqn:Hn2;
        [apply Z.ltb_lt in Hn2; lia|].
      replace (Z.to_nat (historyIndexRef a))
        with (S (Z.to_nat (Z.of_nat (length kept') - 1))); [done|].
      rewrite Z.gtb_ltb in Hgt. apply Z.ltb_lt in Hgt. lia.
    + rewrite Z.gtb_ltb in Hgt. apply Z.ltb_ge in Hgt. lia.
  - apply Z.ltb_ge in Hbig.
    assert (Hidx' : historyIndexRef a' = historyIndexRef a + 1).
    { rewrite Hcur, Hhist, length_app. cbn [length]. lia. }
    unfold undo. rewrite Hidx'.
    destruct (historyIndexRef a + 1 >? 0) eqn:Hgt.
    + rewrite Z.gtb_ltb in Hgt. apply Z.ltb_lt in Hgt.
      cbn [drawingsRef]. rewrite Hprev by lia. rewrite Hhist.
      by replace (historyIndexRef a + 1 - 1) with (historyIndexRef a) by lia.
    + rewrite Z.gtb_ltb in Hgt. apply Z.ltb_ge in Hgt.
      assert (Hm1 : historyIndexRef a = -1) by lia.
      rewrite Hm1. cbn [Z.add Z.eqb Z.opp Pos.eqb drawingsRef].
      rewrite Hcoh, Hm1. done.
Qed.

(** X5. A push can always be undone, and leaves nothing to redo: from a
    well-formed state, after [updateDrawings d] the undo button is enabled
    and the redo button is not, and [undo] shows again the drawing list
    from before the push (also when the push evicted the oldest of 50
    snapshots). *)
Theorem undo_after_push (d : list Drawing) (a : Annotations) :
  ann_wf a ->
  let a' := updateDrawings d a in
  canUndo a' = true /\ canRedo a' = false /\
  drawingsRef (undo a') = drawingsRef a /\
  drawings (undo a') = drawingsRef a.
Proof. apply push_then_undo. Qed.

Lemma undo_after_push_witness :
  let a := applyCalls [[circle_mark]] initAnnotations in
  drawingsRef (undo (updateDrawings [] a)) = Some [circle_mark].
Proof.
  apply (undo_after_push [] (applyCalls [[circle_mark]] initAnnotations)).
  apply updateDrawings_wf, ann_wf_init.
Defined.

(** ** The annotation state in every reachable world *)

Lemma ann_wf_defined (a : Annotations) :
  ann_wf a -> is_Some (drawingsRef a) /\ is_Some (drawings a).
Proof.
  intros ([Hlen Hr] & Hcoh & Hd & _). rewrite Hd, Hcoh.
  destruct (historyIndexRef a =? -1) eqn:Hm; [by eauto|].
  apply Z.eqb_neq in Hm. split; apply js_index_in_range; lia.
Qed.

Lemma handle_call_wf E fc w :
  ann_wf (ann w) -> ann_wf (ann (handle_call fc E w).2).
Proof.
  intros Hwf. unfold handle_call, do_updateDrawings.
  destruct (String.eqb (fc_name fc) "mark_screen").
  - destruct (fc_marks fc) as [ms|]; [|done].
    rewrite bind_ret, bind_unfold, mapI_new_mark, bind_get. simpl.
    destruct (drawingsRef (ann w)); eff_run; [|done].
    by apply updateDrawings_wf.
  - destruct (String.eqb (fc_name fc) "clear_marks"); eff_run; [|done].
    by apply updateDrawings_wf.
Qed.

Lemma forEach_handle_call_wf E calls w :
  ann_wf (ann w) -> ann_wf (ann (forEach handle_call calls E w).2).
Proof.
  revert w. induction calls as [|fc calls IH]; intros w Hwf; simpl; [done|].
  rewrite bind_unfold.
  pose proof (handle_call_wf E fc w Hwf) as Hfc.
  destruct (handle_call fc E w) as [[[]|] w1]; simpl in *; [|done].
  by apply IH.
Qed.

Lemma onmessage_wf E m w :
  ann_wf (ann w) -> ann_wf (ann (exec (onmessage m) E w)).
Proof.
  intros Hwf. unfold exec, onmessage. rewrite bind_unfold.
  destruct (audio_output_frame E m w) as (Ha0 & _).
  destruct (audio_output m E w) as [[[]|] w0]; simpl in *;
    [|by rewrite Ha0].
  rewrite bind_unfold.
  assert (Hwf1 : ann_wf (ann (tool_handling m E w0).2)).
  { unfold tool_handling. destruct (toolCall m); [|simpl; by rewrite Ha0].
    apply forEach_handle_call_wf. by rewrite Ha0. }
  destruct (tool_handling m E w0) as [[[]|] w1]; simpl in *; [|done].
  rewrite bind_unfold, transcription_handling_spec, interruption_spec.
  simpl. by destruct (interrupted m).
Qed.

Lemma startJarvis_ann E w :
  ann (exec startJarvis E w) = ann w \/
  ann (exec startJarvis E w) = initAnnotations.
Proof.
  unfold exec, startJarvis, try_catch, acquire.
  rewrite bind_modify, bind_unfold, bind_ask.
  destruct (getDisplayMedia E); simpl.
  - rewrite bind_unfold, bind_ask.
    destruct (getUserMedia E); simpl; [by left|].
    rewrite bind_ask, bind_modify, cleanup_spec. by right.
  - rewrite bind_ask, bind_modify, cleanup_spec. by right.
Qed.

Lemma handleMouseUp_wf E w :
  ann_wf (ann w) ->
  ann_wf (ann (exec handleMouseUp E w)) /\
  (handleMouseUp E w).1 = Return tt.
Proof.
  intros Hwf. destruct (ann_wf_defined _ Hwf) as [_ [ds Hds]].
  unfold exec, handleMouseUp. rewrite bind_get.
  destruct (isDrawing (hud w)); [|done].
  destruct (previewDrawing (hud w)); [|done].
  rewrite bind_DateNow. cbn [ann with_reads]. rewrite Hds.
  unfold do_updateDrawings. eff_run. split; [|done].
  by apply updateDrawings_wf.
Qed.

Lemma step_wf w ev : ann_wf (ann w) -> ann_wf (ann (step w ev)).
Proof.
  destruct ev as [E ev]. unfold step. cbn [fst snd]. intros Hwf.
  destruct ev; cbn [handler].
  - destruct (startJarvis_ann E w) as [-> | ->]; [done|apply ann_wf_init].
  - done.
  - by apply onmessage_wf.
  - unfold exec, onerror. rewrite bind_ask, bind_modify, cleanup_spec.
    apply ann_wf_init.
  - unfold onclose. rewrite exec_cleanup. apply ann_wf_init.
  - rewrite exec_cleanup. apply ann_wf_init.
  - rewrite exec_cleanup. apply ann_wf_init.
  - by apply undo_wf.
  - by apply redo_wf.
  - done.
  - unfold exec. rewrite handleMouseDown_spec. cbn [snd].
    by destruct (isActive (sess w)).
  - unfold exec, handleMouseMove, getNormalizedPos. rewrite bind_get.
    destruct (isDrawing (hud w)); [|done].
    destruct (startPoint (hud w)); eff_run; done.
  - by apply handleMouseUp_wf.
  - done.
  - unfold exec, run_timeout, clear_callback. rewrite bind_ask, bind_get.
    by destruct (take_due _ _).
Qed.

Lemma run_wf (evs : list (Env * Event)) : ann_wf (ann (run evs initWorld)).
Proof.
  unfold run. induction evs as [|ev evs IH] using rev_ind.
  - apply ann_wf_init.
  - rewrite foldl_app. simpl. by apply step_wf.
Qed.

(** X6. In every world the events can reach (start, open, messages with
    tool calls, errors, close, teardown, undo, redo, tool selection, pointer
    events, playback ends, timeouts, in any order): the history holds at
    most 50 snapshots, the cursor lies between -1 and length-1, the drawing
    list is defined and is the snapshot under the cursor (empty at -1), and
    the state cells equal the refs they mirror. *)
Theorem annotations_stay_well_formed (evs : list (Env * Event)) :
  let a := ann (run evs initWorld) in
  ann_wf a /\ is_Some (drawingsRef a) /\ drawings a = drawingsRef a.
Proof.
  pose proof (run_wf evs) as Hwf.
  simpl. split; [done|]. split; [by apply ann_wf_defined|].
  by destruct Hwf as (_ & _ & Hd & _).
Qed.

(** X7. In every reachable world a pointer release completes: the spread
    of the drawing list in [handleMouseUp] never meets an undefined list,
    whatever undo, redo, tool calls or teardown happened before. *)
Theorem pointer_release_never_raises (evs : list (Env * Event)) (E : Env) :
  (handleMouseUp E (run evs initWorld)).1 = Return tt.
Proof.
  pose proof (run_wf evs) as Hwf.
  by apply handleMouseUp_wf.
Qed.

(** ** Tool calls: clearing, unknown names, malformed arguments *)

(** X8. A [clear_marks] call on a well-formed annotation state completes,
    leaves the drawing list empty, sends one acknowledgment "HUD clear."
    with the call's id, and is an ordinary history step: [undo] shows the
    list from before the call again. *)
Theorem clear_marks_can_be_undone (E : Env) (fc : FunctionCall) (w : World) :
  fc_name fc = "clear_marks" ->
  ann_wf (ann w) ->
  let w' := exec (handle_call fc) E w in
  (handle_call fc E w).1 = Return tt /\
  drawingsRef (ann w') = Some [] /\
  trace w' = trace w ++ [SendToolResponse (fc_id fc) "clear_marks" "HUD clear."] /\
  drawingsRef (undo (ann w')) = drawingsRef (ann w).
Proof.
  intros Hn Hwf. unfold exec, handle_call, do_updateDrawings.
  rewrite Hn. cbn [String.eqb Ascii.eqb Bool.eqb].
  eff_run. unfold emit, modify. cbn.
  repeat split. by apply push_then_undo.
Qed.

Lemma clear_marks_can_be_undone_witness :
  let fc := mkFunctionCall "call-2" "clear_marks" None in
  let w := exec (handle_call (mkFunctionCall "call-1" "mark_screen"
                                             (Some [circle_mark])))
                demoEnv started in
  drawingsRef (undo (ann (exec (handle_call fc) demoEnv w)))
  = drawingsRef (ann w).
Proof.
  apply (clear_marks_can_be_undone demoEnv
           (mkFunctionCall "call-2" "clear_marks" None)); [reflexivity|].
  apply handle_call_wf. apply (run_wf [(demoEnv, EvActivate); (demoEnv, EvOpen)]).
Defined.

Lemma handle_unknown_call E fc w :
  known_call fc = false -> handle_call fc E w = (Return tt, w).
Proof.
  unfold known_call, handle_call. intros [H1 H2]%orb_false_elim.
  by rewrite H1, H2.
Qed.

(** X9. Calls with a name other than [mark_screen] and [clear_marks] are
    passed over: handling a list of function calls gives the same outcome,
    the same world and the same acknowledgments as handling the list with
    those calls removed. No response is ever sent for them. *)
Theorem unknown_calls_are_passed_over
    (E : Env) (calls : list FunctionCall) (w : World) :
  forEach handle_call calls E w
  = forEach handle_call (filter (fun fc => known_call fc = true) calls) E w.
Proof.
  revert w. induction calls as [|fc calls IH]; intros w; [done|].
  destruct (known_call fc) eqn:Hk.
  - rewrite filter_cons_True by done. cbn [forEach].
    rewrite !bind_unfold. destruct (handle_call fc E w) as [[[]|] w1]; [|done].
    apply IH.
  - rewrite filter_cons_False by (rewrite Hk; done). cbn [forEach].
    rewrite bind_unfold, handle_unknown_call by done. apply IH.
Qed.

Lemma forEach_app {A} (f : A -> Eff unit) (xs ys : list A) E w :
  forEach f (xs ++ ys) E w
  = match forEach f xs E w with
    | (Return _, w') => forEach f ys E w'
    | (Throw, w') => (Throw, w')
    end.
Proof.
  revert w. induction xs as [|x xs IH]; intros w; [done|].
  cbn [app forEach]. rewrite !bind_unfold.
  destruct (f x E w) as [[[]|] w1]; [apply IH|done].
Qed.

(** X10. A [mark_screen] call whose [marks] is not an array raises, and the
    raise ends the whole message handler, wherever the call stands in the
    list: the handler raises, and the world is the one that the audio
    branch and the calls before this one left. No acknowledgment is sent
    for this call, the calls after it are not handled, the message's
    caption text is not appended, no clear timeout is set and its
    interruption flag is not acted on. *)
Theorem non_array_marks_end_the_handler
    (E : Env) (m : Message) (w w0 : World)
    (before : list FunctionCall) (fc : FunctionCall)
    (rest : list FunctionCall) :
  audio_output m E w = (Return tt, w0) ->
  toolCall m = Some (before ++ fc :: rest) ->
  fc_name fc = "mark_screen" ->
  fc_marks fc = None ->
  let w1 := (forEach handle_call before E w0).2 in
  onmessage m E w = (Throw, w1) /\
  cap w1 = cap w0 /\ timers w1 = timers w0 /\ audio w1 = audio w0 /\
  (before = [] -> w1 = w0).
Proof.
  intros Ha Ht Hn Hm w1.
  destruct (forEach_handle_call_frame E before w0)
    as (_ & Hau & Hca & _ & _ & Hti & _).
  split; [|split; [done|split; [done|split; [done|by intros ->]]]].
  unfold onmessage. rewrite bind_unfold, Ha, bind_unfold.
  unfold tool_handling. rewrite Ht, forEach_app. unfold w1.
  destruct (forEach handle_call before E w0) as [[[]|] w']; [|done].
  cbn [forEach snd]. rewrite bind_unfold. unfold handle_call.
  rewrite Hn, Hm. done.
Qed.

Lemma non_array_marks_end_the_handler_witness :
  let clear := mkFunctionCall "call-1" "clear_marks" None in
  let bad := mkFunctionCall "call-2" "mark_screen" None in
  let m := mkMessage None (Some [clear; bad; clear]) (Some (Some "hello"))
                     None true true in
  onmessage m demoEnv started
  = (Throw, exec (handle_call clear) demoEnv started) /\
  trace (exec (onmessage m) demoEnv started)
  = [SendToolResponse "call-1" "clear_marks" "HUD clear."].
Proof.
  intros clear bad m.
  destruct (non_array_marks_end_the_handler demoEnv m started started
              [clear] bad [clear] eq_refl eq_refl eq_refl eq_refl)
    as (Hrun & _).
  split.
  - rewrite Hrun. reflexivity.
  - unfold exec. rewrite Hrun. reflexivity.
Defined.

(** ** Playback: decode failures, teardown, monotonicity *)

(** X11. When decoding a chunk raises, the handler ends there: the only
    change is that [nextStartTime] has already been raised to the playback
    clock (if that is later); no source is started or added to the active
    set, and nothing else of the message (tool calls, captions,
    interruption) is handled. The output stays usable: the next chunk that
    decodes is started at the later of that [nextStartTime] and its own
    clock reading. *)
Theorem decode_failure_skips_the_message
    (E E' : Env) (m m' : Message) (w : World) (data : string) (d : Z) :
  has_output w ->
  audioData m = Some data ->
  data <> "" ->
  decodeAudioData E data = None ->
  let next := Z.max (nextStartTimeRef (audio w)) (currentTime E) in
  let w1 := exec (onmessage m) E w in
  onmessage m E w
    = (Throw,
       with_audio (fun a =>
         mkAudio (inputAudioCtxRef a) (outputAudioCtxRef a)
                 (outputAnalyserRef a) next (sourcesRef a)) w) /\
  trace w1 = trace w /\
  sourcesRef (audio w1) = sourcesRef (audio w) /\
  ann w1 = ann w /\ cap w1 = cap w /\ timers w1 = timers w /\
  (chunk_duration (E', m') = Some d ->
   starts (trace (exec (onmessage m') E' w1))
     = starts (trace w) ++ [Z.max next (currentTime E')]).
Proof.
  intros [[c Hc] [an Han]] Hdata Hne Hdec. simpl.
  assert (Hthrow : onmessage m E w
    = (Throw,
       with_audio (fun a =>
         mkAudio (inputAudioCtxRef a) (outputAudioCtxRef a)
                 (outputAnalyserRef a)
                 (Z.max (nextStartTimeRef (audio w)) (currentTime E))
                 (sourcesRef a)) w)).
  { unfold onmessage, audio_output, set_nextStartTime.
    rewrite bind_unfold, bind_get, Hdata, Hc, Han.
    apply String.eqb_neq in Hne. rewrite Hne.
    rewrite bind_ask, bind_modify, bind_unfold, Hdec. done. }
  unfold exec. rewrite Hthrow. cbn [fst snd].
  split; [done|]. split; [done|]. split; [done|]. split; [done|].
  split; [done|]. split; [done|].
  intros Hd.
  set (w1 := with_audio _ w).
  assert (Hout1 : has_output w1).
  { unfold has_output, w1, with_audio. cbn. by rewrite Hc, Han. }
  unfold onmessage.
  rewrite bind_unfold, (audio_output_plays E' m' w1 d Hout1 Hd).
  rewrite after_audio_starts.
  unfold played, w1, with_audio, with_trace. cbn [trace audio nextStartTimeRef].
  unfold starts. by rewrite omap_app.
Qed.

Lemma decode_failure_skips_the_message_witness :
  let no_decoder :=
    mkEnv 4 (fun _ => None) 0%nat (fun _ => false) (fun _ => 1000%N) 0
          (fun q => q) 1000 1000 None None "" 0%nat 0%nat 0%nat 0%nat 0 in
  let w1 := exec (onmessage (audio_msg "garbled")) no_decoder started in
  nextStartTimeRef (audio w1) = 4 /\
  starts (trace (exec (onmessage (audio_msg "abc")) (at_clock 2 demoEnv) w1))
  = [4].
Proof.
  pose proof (decode_failure_skips_the_message
    (mkEnv 4 (fun _ => None) 0%nat (fun _ => false) (fun _ => 1000%N) 0
           (fun q => q) 1000 1000 None None "" 0%nat 0%nat 0%nat 0%nat 0)
    (at_clock 2 demoEnv) (audio_msg "garbled") (audio_msg "abc")
    started "garbled" 3 started_has_output eq_refl) as H.
  destruct H as (_ & _ & _ & _ & _ & _ & Hnext); [done|reflexivity|].
  split; [reflexivity|]. apply Hnext. reflexivity.
Defined.

Lemma audio_output_after_cleanup E E' m w :
  audio_output m E' (exec cleanup E w) = (Return tt, exec cleanup E w).
Proof.
  rewrite exec_cleanup. unfold audio_output. rewrite bind_get.
  by destruct (audioData m).
Qed.

(** X12. Nothing is played after teardown. Whatever a message carries when
    it arrives after [cleanup] (audio, tool calls, captions, interruption),
    handling it starts no source, the active set stays empty,
    [nextStartTime] stays 0 and no audio context comes back. *)
Theorem no_playback_after_teardown (E E' : Env) (m : Message) (w : World) :
  let w1 := exec cleanup E w in
  let w2 := exec (onmessage m) E' w1 in
  starts (trace w2) = starts (trace w1) /\
  sourcesRef (audio w2) = [] /\
  nextStartTimeRef (audio w2) = 0 /\
  outputAudioCtxRef (audio w2) = None /\
  inputAudioCtxRef (audio w2) = None.
Proof.
  cbv zeta. set (w1 := exec cleanup E w).
  assert (Hau1 : audio w1 = mkAudio None None None 0 [])
    by (unfold w1; by rewrite exec_cleanup).
  assert (Hrun : exec (onmessage m) E' w1
            = ((tool_handling m ;; transcription_handling m ;;
                interruption m) E' w1).2).
  { unfold exec at 1, onmessage. rewrite bind_unfold. unfold w1.
    by rewrite audio_output_after_cleanup. }
  rewrite Hrun. split; [apply after_audio_starts|].
  rewrite bind_unfold.
  pose proof (tool_handling_frame E' m w1) as Hf.
  destruct (tool_handling m E' w1) as [[[]|] w2];
    cbn [fst snd] in *;
    destruct Hf as (_ & Ha & _).
  - rewrite bind_unfold, transcription_handling_spec, interruption_spec.
    cbn [fst snd].
    assert (Hau : audio w2 = mkAudio None None None 0 [])
      by (by rewrite Ha).
    destruct w2 as [an se au ca hu st ti tr rd]. cbn in Hau. subst au.
    by destruct (interrupted m).
  - by rewrite Ha, Hau1.
Qed.

Lemma audio_output_next E m w :
  (forall data d, decodeAudioData E data = Some d -> 0 <= d) ->
  nextStartTimeRef (audio w) <= nextStartTimeRef (audio (audio_output m E w).2).
Proof.
  intros Hpos. unfold audio_output, set_nextStartTime. rewrite bind_get.
  destruct (audioData m) as [data|]; [|done].
  destruct (outputAudioCtxRef (audio w)); [|done].
  destruct (outputAnalyserRef (audio w)); [|done].
  destruct (String.eqb data ""); [done|].
  rewrite bind_ask, bind_modify, bind_unfold.
  destruct (decodeAudioData E data) as [d|] eqn:Hd.
  - specialize (Hpos data d Hd). eff_run.
    unfold modify, with_audio, with_trace. cbn. lia.
  - unfold with_audio. cbn. lia.
Qed.

(** X13. Without an interruption flag, a message never moves
    [nextStartTime] backwards (decoded durations being non-negative): not
    when it plays a chunk, not when decoding raises, not when a tool call
    raises. *)
Theorem nextStartTime_never_decreases (E : Env) (m : Message) (w : World) :
  interrupted m = false ->
  (forall data d, decodeAudioData E data = Some d -> 0 <= d) ->
  nextStartTimeRef (audio w)
  <= nextStartTimeRef (audio (exec (onmessage m) E w)).
Proof.
  intros Hi Hpos. pose proof (audio_output_next E m w Hpos) as Hnext.
  unfold exec, onmessage. rewrite bind_unfold.
  destruct (audio_output m E w) as [[[]|] w0]; cbn [fst snd] in *; [|done].
  destruct (after_audio_frame E m w0 Hi) as [Ha _].
  cbn in Ha. by rewrite Ha.
Qed.

Lemma nextStartTime_never_decreases_witness :
  nextStartTimeRef (audio started)
  <= nextStartTimeRef
       (audio (exec (onmessage (audio_msg "abc")) (at_clock 5 demoEnv) started)).
Proof.
  apply nextStartTime_never_decreases; [reflexivity|].
  intros data d [= <-]. apply Nat2Z.is_nonneg.
Defined.

Lemma interruption_in_any_message_witness :
  let playing := exec (onmessage (audio_msg "abcdefgh")) demoEnv started in
  let m := mkMessage (Some "xy") None None None false true in
  sourcesRef (audio (exec (onmessage m) demoEnv playing)) = [] /\
  SourceStop 0%nat ∈ effects_of (onmessage m) demoEnv playing.
Proof.
  pose proof (interruption_in_any_message demoEnv
    (mkMessage (Some "xy") None None None false true)
    (exec (onmessage (audio_msg "abcdefgh")) demoEnv started)
    eq_refl eq_refl) as (Hset & _ & Hstop).
  split; [exact Hset|]. apply Hstop. apply list_elem_of_singleton.
  reflexivity.
Defined.

(** ** Teardown again *)

(** X16. What does hold of repeated teardown: a second [cleanup] changes no
    cell of the program (annotations, session, audio, captions, pointer
    state, tool, pending timeouts are exactly as the first call left them),
    and the only requests it makes are a timer clear and track stops; the
    sources, the audio contexts and the remote session are released by the
    first call only. *)
Theorem second_cleanup_changes_no_state (E E' : Env) (w : World) :
  let w1 := exec cleanup E w in
  let w2 := exec cleanup E' w1 in
  ann w2 = ann w1 /\ sess w2 = sess w1 /\ audio w2 = audio w1 /\
  cap w2 = cap w1 /\ hud w2 = hud w1 /\ selectedTool w2 = selectedTool w1 /\
  timers w2 = timers w1 /\ reads w2 = reads w1 /\
  Forall (fun e => (exists id, e = ClearInterval id) \/
                   (exists t, e = TrackStop t))
         (effects_of cleanup E' w1).
Proof.
  cbv zeta. rewrite cleanup_second_call.
  repeat (split; [reflexivity|]).
  apply Forall_forall. intros e He.
  by apply (cleanup_second_call_releases_no_audio E E' w e).
Qed.

(** X24. Every path into teardown makes the same release requests: the
    remote error callback, the remote close callback, the end of the screen
    track and the HUD's shutdown button all request exactly what [cleanup]
    requests in that world, and leave the session inactive with no session
    handle and no audio context; only the error callback also sets the
    error message. *)
Theorem every_teardown_path_releases_the_same (E : Env) (w : World) :
  Forall (fun ev =>
            let w' := step w (E, ev) in
            trace w' = trace w ++ cleanup_effects w /\
            isActive (sess w') = false /\
            sessionPromiseRef (sess w') = None /\
            audio w' = mkAudio None None None 0 [] /\
            ann w' = initAnnotations)
         [EvError; EvClose; EvTrackEnded; EvDeactivate] /\
  error (sess (step w (E, EvError)))
    = Some ("J.A.R.V.I.S. Uplink Error: " +:+ err_message E +:+ ".") /\
  error (sess (step w (E, EvClose))) = error (sess w).
Proof.
  assert (Herr : step w (E, EvError)
    = cleaned (with_sess (fun s =>
        mkSession (isActive s) (isConnecting s)
          (Some ("J.A.R.V.I.S. Uplink Error: " +:+ err_message E +:+ "."))
          (voiceData s) (screenStream s) (micStreamRef s)
          (frameIntervalRef s) (sessionPromiseRef s)) w)).
  { unfold step, exec. cbn [fst snd handler]. unfold onerror.
    by rewrite bind_ask, bind_modify, cleanup_spec. }
  assert (Hclean : forall ev, ev = EvClose \/ ev = EvTrackEnded \/
                              ev = EvDeactivate ->
                     step w (E, ev) = cleaned w).
  { intros ev [-> | [-> | ->]]; unfold step; cbn [fst snd handler];
      unfold onclose; apply exec_cleanup. }
  split; [|split].
  - repeat constructor; try (by rewrite Herr);
      rewrite Hclean by auto; reflexivity.
  - by rewrite Herr.
  - rewrite Hclean by auto. reflexivity.
Qed.

(** ** Drawing with the pointer *)

Lemma handleMouseMove_spec E e w sp :
  isDrawing (hud w) = true ->
  startPoint (hud w) = Some sp ->
  handleMouseMove e E w
  = (Return tt,
     with_hud (fun h =>
       mkHud (isDrawing h) (startPoint h)
             (currentPoints h ++ [normalized E e])
             (Some (make_preview E (selectedTool w) sp (normalized E e)
                                 (currentPoints (hud w))))) w).
Proof.
  intros Hd Hsp. unfold handleMouseMove, getNormalizedPos.
  rewrite bind_get, Hd, Hsp. reflexivity.
Qed.

(** The pointer state while a press is held and the pointer moves. *)
Lemma drag_state E e0 es w :
  isActive (sess w) = true ->
  let w' := run (drag E e0 es) w in
  isDrawing (hud w') = true /\
  startPoint (hud w') = Some (normalized E e0) /\
  currentPoints (hud w') = map (normalized E) (e0 :: es) /\
  selectedTool w' = selectedTool w /\
  ann w' = ann w /\ trace w' = trace w /\ reads w' = reads w.
Proof.
  intros Hact. induction es as [|e es IH] using rev_ind.
  - unfold drag, run, step, exec. cbn [map foldl fst snd handler].
    rewrite handleMouseDown_spec, Hact. unfold with_hud. cbn. done.
  - unfold drag in *. rewrite map_app. cbn [map].
    rewrite app_comm_cons. unfold run in *. rewrite foldl_app.
    cbv zeta in IH. set (w1 := foldl step w (_ :: _)) in *.
    cbn [foldl].
    destruct IH as (Hd & Hsp & Hcp & Hst & Ha & Ht & Hr).
    clearbody w1. unfold step, exec. cbn [fst snd handler].
    rewrite (handleMouseMove_spec E e w1 _ Hd Hsp).
    unfold with_hud. cbn. rewrite Hcp.
    repeat split; try done.
    by rewrite map_app.
Qed.

Lemma drag_preview E e0 es e w :
  isActive (sess w) = true ->
  previewDrawing (hud (run (drag E e0 (es ++ [e])) w))
  = Some (make_preview E (selectedTool w) (normalized E e0) (normalized E e)
                       (map (normalized E) (e0 :: es))).
Proof.
  intros Hact. unfold drag. rewrite map_app. cbn [map].
  rewrite app_comm_cons. unfold run. rewrite foldl_app.
  destruct (drag_state E e0 es w Hact) as (Hd & Hsp & Hcp & Hst & _).
  unfold drag, run in Hd, Hsp, Hcp, Hst.
  set (w1 := foldl step w (_ :: _)) in *. cbn [foldl]. clearbody w1.
  unfold step, exec. cbn [fst snd handler].
  rewrite (handleMouseMove_spec E e w1 _ Hd Hsp).
  unfold with_hud. cbn. by rewrite Hcp, Hst.
Qed.

(** X17. With the path tool, the preview carries every sampled point in
    order: after a press at [e0] and any moves ending at [e], its points
    are the normalized positions of the press and of all the moves, and
    its anchor is the press position. *)
Theorem path_preview_has_every_point
    (E : Env) (e0 e : MouseEvent) (es : list MouseEvent) (w : World) :
  isActive (sess w) = true ->
  selectedTool w = path ->
  exists p,
    previewDrawing (hud (run (drag E e0 (es ++ [e])) w)) = Some p /\
    p !! "type" = Some (VStr "path") /\
    p !! "points"
      = Some (VPoints (map (normalized E) (e0 :: es ++ [e]))) /\
    p !! "x" = Some (VNum (px (normalized E e0))) /\
    p !! "y" = Some (VNum (py (normalized E e0))) /\
    p !! "id" = Some (VStr "preview").
Proof.
  intros Hact Htool. eexists. split; [by apply drag_preview|].
  rewrite Htool, app_comm_cons, map_app.
  unfold make_preview, obj. repeat split.
Qed.

Lemma path_preview_has_every_point_witness :
  exists p,
    previewDrawing
      (hud (run (drag demoEnv (mkMouseEvent 100 100)
                      ([mkMouseEvent 150 120] ++ [mkMouseEvent 200 180]))
                started)) = Some p /\
    p !! "type" = Some (VStr "path").
Proof.
  destruct (path_preview_has_every_point demoEnv (mkMouseEvent 100 100)
              (mkMouseEvent 200 180) [mkMouseEvent 150 120] started
              eq_refl eq_refl) as (p & Hp & Ht & _).
  exists p. split; [exact Hp|exact Ht].
Defined.

(** X18. For every tool but the path tool only the press and the latest
    position count: the preview after a press and any number of moves is
    the preview after the press and the last move alone. For the arrow it
    is the two-point line from the press to the latest position. *)
Theorem only_first_and_last_point_count
    (E : Env) (e0 e : MouseEvent) (es : list MouseEvent) (w : World) :
  isActive (sess w) = true ->
  selectedTool w <> path ->
  previewDrawing (hud (run (drag E e0 (es ++ [e])) w))
    = previewDrawing (hud (run (drag E e0 [e]) w)) /\
  (selectedTool w = arrow ->
   exists p,
     previewDrawing (hud (run (drag E e0 (es ++ [e])) w)) = Some p /\
     p !! "type" = Some (VStr "arrow") /\
     p !! "points" = Some (VPoints [normalized E e0; normalized E e])).
Proof.
  intros Hact Htool.
  rewrite (drag_preview E e0 es e w Hact).
  change [e] with ([] ++ [e]).
  rewrite (drag_preview E e0 [] e w Hact).
  split.
  - by destruct (selectedTool w).
  - intros Ha. eexists. split; [reflexivity|]. rewrite Ha.
    unfold make_preview, obj. by split.
Qed.

Lemma only_first_and_last_point_count_witness :
  let w := run [(demoEnv, EvSelectTool arrow)] started in
  previewDrawing
    (hud (run (drag demoEnv (mkMouseEvent 100 100)
                    ([mkMouseEvent 150 120] ++ [mkMouseEvent 200 180])) w))
  = previewDrawing
      (hud (run (drag demoEnv (mkMouseEvent 100 100) [mkMouseEvent 200 180])
                w)).
Proof.
  apply (only_first_and_last_point_count demoEnv (mkMouseEvent 100 100)
           (mkMouseEvent 200 180) [mkMouseEvent 150 120]
           (run [(demoEnv, EvSelectTool arrow)] started)); [reflexivity|].
  discriminate.
Defined.

(** X19. Releasing the pointer while a preview exists commits it: exactly
    one drawing is appended to the list the HUD was given, through
    [updateDrawings] (one new history snapshot). The committed drawing is
    the preview with two properties replaced, the id ("user-" and the
    clock reading) and the color ("#22d3ee"); every other property, so all
    of the geometry, is the preview's. The pointer state is reset, and no
    request is made. *)
Theorem release_commits_the_preview
    (E : Env) (w : World) (p : Drawing) (ds : list Drawing) :
  isDrawing (hud w) = true ->
  previewDrawing (hud w) = Some p ->
  drawings (ann w) = Some ds ->
  let w' := exec handleMouseUp E w in
  exists final,
    ann w' = updateDrawings (ds ++ [final]) (ann w) /\
    drawingsRef (ann w') = Some (ds ++ [final]) /\
    final !! "id" = Some (VStr (user_id (Date_now E (reads w)))) /\
    final !! "color" = Some (VStr "#22d3ee") /\
    (forall k, k <> "id" -> k <> "color" -> final !! k = p !! k) /\
    hud w' = mkHud false None [] None /\
    trace w' = trace w.
Proof.
  intros Hd Hp Hds. cbv zeta. unfold exec, handleMouseUp, do_updateDrawings.
  rewrite bind_get, Hd, Hp, bind_DateNow.
  unfold with_reads at 1. cbn [ann]. rewrite Hds.
  rewrite bind_modify. unfold modify. cbn [snd].
  eexists. split; [reflexivity|]. split; [reflexivity|].
  split; [|split; [|split; [|split]]].
  - rewrite lookup_insert_ne by done. apply lookup_insert_eq.
  - apply lookup_insert_eq.
  - intros k Hk1 Hk2. by rewrite !lookup_insert_ne.
  - reflexivity.
  - reflexivity.
Qed.

Lemma release_commits_the_preview_witness :
  let w := run (drag demoEnv (mkMouseEvent 200 200) [mkMouseEvent 400 300])
               started in
  exists final,
    drawingsRef (ann (exec handleMouseUp demoEnv w)) = Some ([] ++ [final]) /\
    final !! "id" = Some (VStr "user-1000").
Proof.
  destruct (release_commits_the_preview demoEnv
    (run (drag demoEnv (mkMouseEvent 200 200) [mkMouseEvent 400 300]) started)
    (make_preview demoEnv path (normalized demoEnv (mkMouseEvent 200 200))
       (normalized demoEnv (mkMouseEvent 400 300))
       [normalized demoEnv (mkMouseEvent 200 200)])
    [] eq_refl eq_refl eq_refl) as (final & _ & Hd & Hid & _).
  exists final. split; [exact Hd|exact Hid].
Defined.

(** X26. Normalized positions lie in the canonical 0-1000 space: for an
    event inside a window of positive size, both coordinates computed by
    [getNormalizedPos] are between 0 and 1000 (in exact arithmetic). *)
Theorem normalized_position_in_canonical_space
    (E : Env) (e : MouseEvent) (w : World) :
  (0 < innerWidth E)%Q -> (0 < innerHeight E)%Q ->
  (0 <= clientX e <= innerWidth E)%Q ->
  (0 <= clientY e <= innerHeight E)%Q ->
  exists pos,
    getNormalizedPos e E w = (Return pos, w) /\
    (0 <= px pos <= 1000)%Q /\ (0 <= py pos <= 1000)%Q.
Proof.
  intros Hw Hh [Hx0 Hx1] [Hy0 Hy1].
  assert (Hscale : forall c s : Q, (0 < s)%Q -> (0 <= c)%Q -> (c <= s)%Q ->
                     (0 <= c / s * 1000 <= 1000)%Q).
  { intros c s Hs Hc0 Hc1.
    assert (H0 : (0 <= c / s)%Q).
    { apply Qle_shift_div_l; [done|]. by rewrite Qmult_0_l. }
    assert (H1 : (c / s <= 1)%Q).
    { apply Qle_shift_div_r; [done|]. by rewrite Qmult_1_l. }
    split.
    - apply Qmult_le_0_compat; [done|]. discriminate.
    - apply Qle_trans with (1 * 1000)%Q.
      + apply Qmult_le_compat_r; [done|]. discriminate.
      + discriminate. }
  eexists. split; [reflexivity|]. cbn [px py]. split; by apply Hscale.
Qed.

Lemma normalized_position_in_canonical_space_witness :
  exists pos,
    getNormalizedPos (mkMouseEvent 200 300) demoEnv initWorld
      = (Return pos, initWorld) /\
    (0 <= px pos <= 1000)%Q.
Proof.
  destruct (normalized_position_in_canonical_space demoEnv
              (mkMouseEvent 200 300) initWorld) as (pos & Hp & Hx & _);
    try (split; discriminate); try reflexivity.
  exists pos. split; [exact Hp|exact Hx].
Defined.




(** ** Ids of the marks of one call *)

(** X20. A mark that carries an [id] property of its own keeps it: in the
    drawing built for mark [i] of a [mark_screen] call every property of
    the mark is kept as it is, and the generated id "ai-<clock>-<i>" is
    used only when the mark has no [id]. *)
Theorem mark_keeps_its_own_id
    (E : Env) (fc : FunctionCall) (w : World)
    (ms : list Obj) (cur : list Drawing) (i : nat) (m : Obj) :
  fc_name fc = "mark_screen" ->
  fc_marks fc = Some ms ->
  drawingsRef (ann w) = Some cur ->
  ms !! i = Some m ->
  exists new d,
    drawingsRef (ann (exec (handle_call fc) E w)) = Some new /\
    new !! (length cur + i)%nat = Some d /\
    (forall k v, m !! k = Some v -> d !! k = Some v) /\
    (m !! "id" = None ->
     d !! "id" = Some (VStr (ai_id (Date_now E (reads w + i)) i))) /\
    dom d = dom m ∪ {[ "id" ]}.
Proof.
  intros Hn Hm Hc Hi. unfold exec.
  rewrite (handle_mark_screen E fc w ms cur Hn Hm Hc). cbn [snd].
  eexists _, _. split; [reflexivity|]. split.
  { rewrite lookup_app_r by lia.
    replace (length cur + i - length cur)%nat with i by lia.
    rewrite marks_from_lookup, Hi. reflexivity. }
  cbn [Nat.add]. split; [|split].
  - intros k v Hk. apply lookup_union_Some_raw. by left.
  - intros Hnone. apply lookup_union_Some_raw. right.
    split; [done|]. apply lookup_singleton_eq.
  - by rewrite dom_union_L, dom_singleton_L.
Qed.

Lemma mark_keeps_its_own_id_witness :
  let own := obj [("id", VStr "mine"); ("type", VStr "text");
                  ("x", VNum 10); ("y", VNum 20)] in
  let fc := mkFunctionCall "call-1" "mark_screen" (Some [circle_mark; own]) in
  exists new d,
    drawingsRef (ann (exec (handle_call fc) demoEnv initWorld)) = Some new /\
    new !! 1%nat = Some d /\ d !! "id" = Some (VStr "mine").
Proof.
  destruct (mark_keeps_its_own_id demoEnv
    (mkFunctionCall "call-1" "mark_screen"
       (Some [circle_mark;
              obj [("id", VStr "mine"); ("type", VStr "text");
                   ("x", VNum 10); ("y", VNum 20)]]))
    initWorld
    [circle_mark;
     obj [("id", VStr "mine"); ("type", VStr "text");
          ("x", VNum 10); ("y", VNum 20)]]
    [] 1%nat
    (obj [("id", VStr "mine"); ("type", VStr "text");
          ("x", VNum 10); ("y", VNum 20)])
    eq_refl eq_refl eq_refl eq_refl) as (new & d & Hnew & Hd & Hkeep & _).
  exists new, d. split; [exact Hnew|]. split; [exact Hd|].
  apply Hkeep. reflexivity.
Defined.

Lemma marks_from_ids E r i ms d :
  Forall (fun m : Obj => m !! "id" = None) ms ->
  d ∈ marks_from E r i ms ->
  exists t k, (i <= k)%nat /\ d !! "id" = Some (VStr (ai_id t k)).
Proof.
  intros Hno. revert r i. induction Hno as [|m ms Hm _ IH]; intros r i Hd.
  - by apply elem_of_nil in Hd.
  - cbn [marks_from] in Hd. apply elem_of_cons in Hd as [-> | Hd].
    + exists (Date_now E r), i. split; [lia|].
      apply lookup_union_Some_raw. right. split; [done|].
      apply lookup_singleton_eq.
    + destruct (IH _ _ Hd) as (t & k & Hk & Hid).
      exists t, k. split; [lia|done].
Qed.

Lemma marks_from_NoDup E r i ms :
  Forall (fun m : Obj => m !! "id" = None) ms ->
  NoDup (map (fun d : Drawing => d !! "id") (marks_from E r i ms)).
Proof.
  intros Hno. revert r i. induction Hno as [|m ms Hm Hms IH]; intros r i.
  - constructor.
  - cbn [marks_from map]. constructor; [|apply IH].
    intros Hin. apply list_elem_of_fmap in Hin as (d & Heq & Hd).
    destruct (marks_from_ids E (S r) (S i) ms d Hms Hd) as (t & k & Hk & Hid).
    assert (Hhead : (m ∪ {["id" := VStr (ai_id (Date_now E r) i)]} : Obj) !! "id"
                    = Some (VStr (ai_id (Date_now E r) i))).
    { apply lookup_union_Some_raw. right. split; [done|].
      apply lookup_singleton_eq. }
    rewrite Hhead, Hid in Heq.
    assert (Hsame : ai_id (Date_now E r) i = ai_id t k) by congruence.
    apply ai_id_inj in Hsame as [_ Hik]. lia.
Qed.

(** X21. Within one [mark_screen] call the generated ids never collide,
    whatever the clock reads: when no mark carries an [id] of its own, the
    drawings appended by the call have pairwise distinct ids (the index in
    the id tells them apart even within one millisecond). *)
Theorem ids_within_a_call_are_distinct
    (E : Env) (fc : FunctionCall) (w : World)
    (ms : list Obj) (cur : list Drawing) :
  fc_name fc = "mark_screen" ->
  fc_marks fc = Some ms ->
  drawingsRef (ann w) = Some cur ->
  Forall (fun m : Obj => m !! "id" = None) ms ->
  exists new,
    drawingsRef (ann (exec (handle_call fc) E w)) = Some (cur ++ new) /\
    length new = length ms /\
    NoDup (map (fun d : Drawing => d !! "id") new).
Proof.
  intros Hn Hm Hc Hno. unfold exec.
  rewrite (handle_mark_screen E fc w ms cur Hn Hm Hc). cbn [snd].
  eexists. split; [reflexivity|]. split.
  - apply marks_from_length.
  - by apply marks_from_NoDup.
Qed.

Lemma ids_within_a_call_are_distinct_witness :
  let fc := mkFunctionCall "call-1" "mark_screen"
                           (Some [circle_mark; circle_mark]) in
  exists new,
    drawingsRef (ann (exec (handle_call fc) demoEnv initWorld))
      = Some ([] ++ new) /\
    NoDup (map (fun d : Drawing => d !! "id") new).
Proof.
  destruct (ids_within_a_call_are_distinct demoEnv
    (mkFunctionCall "call-1" "mark_screen" (Some [circle_mark; circle_mark]))
    initWorld [circle_mark; circle_mark] [] eq_refl eq_refl eq_refl)
    as (new & Hnew & _ & Hnd).
  - repeat constructor.
  - exists new. split; [exact Hnew|exact Hnd].
Defined.

(** ** Screen frames *)

Lemma Z_pos_Q (a : Z) : 0 < a -> (0 < inject_Z a)%Q.
Proof. intros Ha. change 0%Q with (inject_Z 0). by rewrite <- Zlt_Qlt. Qed.

(** *** Rounding to the nearest double *)

Lemma round_half_even_near (q : Q) :
  (q - (1 # 2) <= inject_Z (round_half_even q) <= q + (1 # 2))%Q.
Proof.
  unfold round_half_even.
  pose proof (Qfloor_le q) as Hlo. pose proof (Qlt_floor q) as Hhi.
  rewrite inject_Z_plus in Hhi. change (inject_Z 1) with 1%Q in Hhi.
  set (f := Qfloor q) in *. clearbody f.
  destruct (q - inject_Z f ?= 1 # 2)%Q eqn:Hc.
  - apply Qeq_alt in Hc.
    destruct (Z.even f); rewrite ?inject_Z_plus;
      change (inject_Z 1) with 1%Q; split; lra.
  - apply Qlt_alt in Hc. split; lra.
  - apply Qgt_alt in Hc. rewrite inject_Z_plus.
    change (inject_Z 1) with 1%Q. split; lra.
Qed.

Lemma pow2_pos (e : Z) : (0 < 2 ^ e)%Q.
Proof. by apply Qpower_0_lt. Qed.

(** [binade] does what it says. *)
Lemma binade_le (a : Q) : (0 < a)%Q -> (2 ^ binade a <= a)%Q.
Proof.
  intros Ha. unfold binade.
  set (ln := Z.log2 (Qnum a)). set (ld := Z.log2 (Z.pos (Qden a))).
  destruct (Qle_bool (2 ^ (ln - ld)) a) eqn:Hb.
  - by apply Qle_bool_iff.
  - assert (Hn : 0 < Qnum a).
    { destruct a as [n d]. unfold Qlt in Ha. simpl in *. lia. }
    assert (Hln : 2 ^ ln <= Qnum a) by (apply Z.log2_spec; exact Hn).
    assert (Hld : Z.pos (Qden a) < 2 ^ (ld + 1)).
    { replace (ld + 1) with (Z.succ ld) by lia. apply Z.log2_spec. lia. }
    assert (H0ln : 0 <= ln) by apply Z.log2_nonneg.
    assert (H0ld : 0 <= ld) by apply Z.log2_nonneg.
    replace (ln - ld - 1) with (ln - (ld + 1)) by lia.
    rewrite Qpower_minus by discriminate.
    rewrite <- !(Zpower_Qpower 2) by lia.
    assert (Hp : (0 < inject_Z (2 ^ (ld + 1)))%Q).
    { change 0%Q with (inject_Z 0). rewrite <- Zlt_Qlt. lia. }
    apply Qle_shift_div_r; [exact Hp|].
    apply Qle_trans with (inject_Z (Qnum a)).
    + rewrite <- Zle_Qle. exact Hln.
    + destruct a as [n d]. unfold Qle, Qmult, inject_Z. simpl in *.
      rewrite Z.mul_1_r. apply Z.mul_le_mono_nonneg_l; lia.
Qed.

Lemma binade_lt (a : Q) : (0 < a)%Q -> (a < 2 ^ (binade a + 1))%Q.
Proof.
  intros Ha. unfold binade.
  set (ln := Z.log2 (Qnum a)). set (ld := Z.log2 (Z.pos (Qden a))).
  destruct (Qle_bool (2 ^ (ln - ld)) a) eqn:Hb.
  - assert (Hn : 0 < Qnum a).
    { destruct a as [n d]. unfold Qlt in Ha. simpl in *. lia. }
    assert (Hln : Qnum a < 2 ^ (ln + 1)).
    { replace (ln + 1) with (Z.succ ln) by lia. apply Z.log2_spec. exact Hn. }
    assert (Hld : 2 ^ ld <= Z.pos (Qden a)) by (apply Z.log2_spec; lia).
    assert (H0ln : 0 <= ln) by apply Z.log2_nonneg.
    assert (H0ld : 0 <= ld) by apply Z.log2_nonneg.
    replace (ln - ld + 1) with (ln + 1 - ld) by lia.
    rewrite Qpower_minus by discriminate.
    rewrite <- !(Zpower_Qpower 2) by lia.
    assert (Hp : (0 < inject_Z (2 ^ ld))%Q).
    { change 0%Q with (inject_Z 0). rewrite <- Zlt_Qlt. lia. }
    apply Qlt_shift_div_l; [exact Hp|].
    apply Qle_lt_trans with (inject_Z (Qnum a)).
    + destruct a as [n d]. unfold Qle, Qmult, inject_Z. simpl in *.
      rewrite Z.mul_1_r. apply Z.mul_le_mono_nonneg_l; lia.
    + rewrite <- Zlt_Qlt. exact Hln.
  - replace (ln - ld - 1 + 1) with (ln - ld) by lia.
    apply Qnot_le_lt. intros Hle. apply Qle_bool_iff in Hle. congruence.
Qed.

(** Rounding moves a positive number by at most half a unit in the last
    place, that is by a factor within 2^-53 of 1. *)
Lemma double_pos_error (a : Q) :
  (0 < a)%Q -> (a * (1 - double_eps) <= double_pos a <= a * (1 + double_eps))%Q.
Proof.
  intros Ha. unfold double_pos.
  pose proof (binade_le a Ha) as He.
  set (e := binade a) in *. clearbody e.
  pose proof (pow2_pos (e - 52)) as Hu.
  assert (Hulp : (2 ^ (e - 52) <= a * (1 # 4503599627370496))%Q).
  { replace (e - 52) with (e + -52) by lia.
    rewrite Qpower_plus by discriminate.
    change (2 ^ (-52))%Q with (/ Qpower_positive 2 52)%Q.
    assert (Hc : (/ Qpower_positive 2 52 == 1 # 4503599627370496)%Q)
      by reflexivity.
    rewrite Hc. apply Qmult_le_compat_r; [exact He|discriminate]. }
  set (ulp := (2 ^ (e - 52))%Q) in *. clearbody ulp.
  pose proof (round_half_even_near (a / ulp)) as [Hlo Hhi].
  set (m := inject_Z (round_half_even (a / ulp))) in *. clearbody m.
  assert (Hq : (a / ulp * ulp == a)%Q).
  { field. by apply Qnot_eq_sym, Qlt_not_eq. }
  assert (H1 : ((a / ulp - (1 # 2)) * ulp <= m * ulp)%Q)
    by (apply Qmult_le_compat_r; [exact Hlo|by apply Qlt_le_weak]).
  assert (H2 : (m * ulp <= (a / ulp + (1 # 2)) * ulp)%Q)
    by (apply Qmult_le_compat_r; [exact Hhi|by apply Qlt_le_weak]).
  assert (E1 : ((a / ulp - (1 # 2)) * ulp == a - (1 # 2) * ulp)%Q)
    by (rewrite <- Hq at 2; ring).
  assert (E2 : ((a / ulp + (1 # 2)) * ulp == a + (1 # 2) * ulp)%Q)
    by (rewrite <- Hq at 2; ring).
  rewrite E1 in H1. rewrite E2 in H2. unfold double_eps.
  set (t := (m * ulp)%Q) in *. clearbody t.
  split; lra.
Qed.

Lemma double_error (x : Q) :
  (0 < x)%Q -> (x * (1 - double_eps) <= double x <= x * (1 + double_eps))%Q.
Proof.
  intros Hx. unfold double.
  destruct x as [[|n|n] d]; [done|by apply double_pos_error|done].
Qed.

Lemma scale_ratio_facts (a b : Z) :
  0 < a -> 0 < b ->
  MAX_IMAGE_DIMENSION < a \/ MAX_IMAGE_DIMENSION < b ->
  let ratio := Qmin (double (inject_Z MAX_IMAGE_DIMENSION / inject_Z a))
                    (double (inject_Z MAX_IMAGE_DIMENSION / inject_Z b)) in
  (0 < ratio)%Q /\
  (inject_Z a * ratio <= 1024 * (1 + double_eps))%Q /\
  (inject_Z b * ratio <= 1024 * (1 + double_eps))%Q /\
  (a <= 1024 \/ b <= 1024 -> (ratio <= (1024 # 1025) * (1 + double_eps))%Q).
Proof.
  intros Ha Hb Hbig ratio.
  assert (Hside : forall c : Z, 0 < c ->
    let r := double (inject_Z MAX_IMAGE_DIMENSION / inject_Z c) in
    (0 < r)%Q /\ (inject_Z c * r <= 1024 * (1 + double_eps))%Q /\
    (1024 < c -> (r <= (1024 # 1025) * (1 + double_eps))%Q)).
  { intros c Hc r. pose proof (Z_pos_Q c Hc) as Hqc.
    assert (Hne : ~ (inject_Z c == 0)%Q) by (by apply Qnot_eq_sym, Qlt_not_eq).
    assert (Hx : (0 < inject_Z MAX_IMAGE_DIMENSION / inject_Z c)%Q).
    { apply Qlt_shift_div_l; [done|]. by rewrite Qmult_0_l. }
    destruct (double_error _ Hx) as [Hlo Hhi]. fold r in Hlo, Hhi.
    set (x := (inject_Z MAX_IMAGE_DIMENSION / inject_Z c)%Q) in *.
    assert (Hcx : (inject_Z c * x == 1024)%Q) by (unfold x; change (inject_Z MAX_IMAGE_DIMENSION) with 1024%Q; field; done).
    clearbody x r. unfold double_eps in *. split; [lra|]. split.
    - apply Qle_trans with (inject_Z c * (x * (1 + (1 # 9007199254740992))))%Q.
      + apply Qmult_le_l; done.
      + rewrite Qmult_assoc, Hcx. apply Qle_refl.
    - intros Hbigc.
      assert (Hx1 : (x <= 1024 # 1025)%Q).
      { apply Qmult_lt_0_le_reg_r with (inject_Z c); [done|].
        rewrite (Qmult_comm x), Hcx.
        apply Qle_trans with ((1024 # 1025) * inject_Z 1025)%Q; [done|].
        apply Qmult_le_l; [done|]. rewrite <- Zle_Qle. lia. }
      lra. }
  destruct (Hside a Ha) as (Ha0 & Ha1 & Ha2).
  destruct (Hside b Hb) as (Hb0 & Hb1 & Hb2).
  set (ra := double (inject_Z MAX_IMAGE_DIMENSION / inject_Z a)) in *.
  set (rb := double (inject_Z MAX_IMAGE_DIMENSION / inject_Z b)) in *.
  clearbody ra rb.
  assert (Hra : (ratio <= ra)%Q) by apply Q.le_min_l.
  assert (Hrb : (ratio <= rb)%Q) by apply Q.le_min_r.
  pose proof (Z_pos_Q a Ha) as Hqa. pose proof (Z_pos_Q b Hb) as Hqb.
  split; [by apply Q.min_glb_lt|]. split; [|split].
  - apply Qle_trans with (inject_Z a * ra)%Q; [|done].
    apply Qmult_le_l; done.
  - apply Qle_trans with (inject_Z b * rb)%Q; [|done].
    apply Qmult_le_l; done.
  - unfold MAX_IMAGE_DIMENSION in *. intros [Hs|Hs].
    + apply Qle_trans with rb; [done|]. apply Hb2. lia.
    + apply Qle_trans with ra; [done|]. apply Ha2. lia.
Qed.

Lemma scaled_side_bounds (c : Z) (ratio : Q) :
  0 < c -> (0 < ratio)%Q ->
  (inject_Z c * ratio <= 1024 * (1 + double_eps))%Q ->
  (c <= 1024 -> (ratio <= (1024 # 1025) * (1 + double_eps))%Q) ->
  0 <= Qfloor (double (inject_Z c * ratio)) <= MAX_IMAGE_DIMENSION /\
  Qfloor (double (inject_Z c * ratio)) <= c.
Proof.
  intros Hc Hr Hmax Hsmall. pose proof (Z_pos_Q c Hc) as Hqc.
  assert (Hx : (0 < inject_Z c * ratio)%Q) by (by apply Qmult_lt_0_compat).
  destruct (double_error _ Hx) as [Hlo Hhi].
  set (x := (inject_Z c * ratio)%Q) in *.
  set (y := double x) in *.
  pose proof (Qfloor_le y) as Hfl.
  assert (H0 : (inject_Z 0 <= y)%Q).
  { clearbody x y. unfold double_eps in *. change (inject_Z 0) with 0%Q. lra. }
  assert (Hup : (y < inject_Z 1025)%Q).
  { clearbody x y. unfold double_eps in *. change (inject_Z 1025) with 1025%Q. lra. }
  assert (Hf0 : 0 <= Qfloor y).
  { rewrite <- (Qfloor_Z 0). by apply Qfloor_resp_le. }
  assert (Hf1 : Qfloor y <= 1024).
  { assert (Qfloor y < 1025); [|lia].
    rewrite Zlt_Qlt. by apply Qle_lt_trans with y. }
  unfold MAX_IMAGE_DIMENSION. split; [lia|].
  destruct (Z_le_gt_dec c 1024) as [Hle|Hgt]; [|lia].
  specialize (Hsmall Hle).
  assert (Hxc : (x <= inject_Z c * ((1024 # 1025) * (1 + double_eps)))%Q)
    by (unfold x; by apply Qmult_le_l).
  assert (Hyc : (y < inject_Z (c + 1))%Q).
  { rewrite inject_Z_plus. change (inject_Z 1) with 1%Q.
    clearbody x y. unfold double_eps in *.
    set (C := inject_Z c) in *. clearbody C. lra. }
  assert (Qfloor y < c + 1); [|lia].
  rewrite Zlt_Qlt. by apply Qle_lt_trans with y.
Qed.

(** X22. Every frame the capture tick sends fits the image bound: for a
    video whose sides are positive 32-bit sizes (what the element can
    report; in that range no product or quotient of the tick leaves the
    normal range of doubles), with the scaling computed in doubles as the
    code does, the frame's width and height are between 0 and 1024 and
    never exceed the source's; a source already within 1024 by 1024 is sent
    at its own size; after the tick the canvas has exactly the frame's
    size. A tick without a drawing context, or on a paused or ended video,
    sends nothing and leaves the canvas alone. *)
Theorem sent_frames_fit_the_bound
    (ctx : bool) (v : VideoEl) (canvas : Z * Z) :
  0 < videoWidth v < 2 ^ 32 -> 0 < videoHeight v < 2 ^ 32 ->
  let r := frame_tick ctx v canvas in
  (negb ctx || paused v || ended v = true -> r = (canvas, None)) /\
  (negb ctx || paused v || ended v = false ->
   exists tw th,
     r = ((tw, th), Some (tw, th)) /\
     0 <= tw <= 1024 /\ 0 <= th <= 1024 /\
     tw <= videoWidth v /\ th <= videoHeight v /\
     (videoWidth v <= 1024 -> videoHeight v <= 1024 ->
      tw = videoWidth v /\ th = videoHeight v)).
Proof.
  intros [Hw _] [Hh _]. cbv zeta. unfold frame_tick.
  split; intros Hgo; rewrite Hgo; [done|].
  exists (target_size v).1, (target_size v).2.
  split.
  { destruct (target_size v) as [tw th]. cbn [fst snd].
    destruct (negb (canvas.1 =? tw) || negb (canvas.2 =? th)) eqn:Hc; [done|].
    apply orb_false_elim in Hc as [H1 H2].
    apply negb_false_iff, Z.eqb_eq in H1, H2.
    destruct canvas; cbn in *; by subst. }
  unfold target_size.
  destruct ((videoWidth v >? MAX_IMAGE_DIMENSION)
            || (videoHeight v >? MAX_IMAGE_DIMENSION)) eqn:Hbig.
  - apply orb_true_iff in Hbig. cbn [fst snd].
    assert (Hb : MAX_IMAGE_DIMENSION < videoWidth v \/
                 MAX_IMAGE_DIMENSION < videoHeight v).
    { destruct Hbig as [H|H]; rewrite Z.gtb_ltb in H; apply Z.ltb_lt in H;
        [by left|by right]. }
    destruct (scale_ratio_facts _ _ Hw Hh Hb) as (Hr0 & Hrw & Hrh & Hrs).
    destruct (scaled_side_bounds _ _ Hw Hr0 Hrw) as [Hw1 Hw2];
      [intros; apply Hrs; by left|].
    destruct (scaled_side_bounds _ _ Hh Hr0 Hrh) as [Hh1 Hh2];
      [intros; apply Hrs; by right|].
    change MAX_IMAGE_DIMENSION with 1024 in *.
    split; [done|]. split; [done|]. split; [done|]. split; [done|].
    intros. destruct Hb; lia.
  - apply orb_false_elim in Hbig as [H1 H2].
    rewrite Z.gtb_ltb in H1, H2. apply Z.ltb_ge in H1, H2.
    change MAX_IMAGE_DIMENSION with 1024 in *. cbn [fst snd].
    repeat split; lia.
Qed.

Lemma sent_frames_fit_the_bound_witness :
  exists tw th,
    frame_tick true (mkVideo false false 1122 631) (0, 0)
      = ((tw, th), Some (tw, th)) /\
    0 <= tw <= 1024 /\ 0 <= th <= 1024.
Proof.
  destruct (sent_frames_fit_the_bound true (mkVideo false false 1122 631)
              (0, 0)) as [_ H]; [by split|by split|].
  destruct (H eq_refl) as (tw & th & Hr & Hw & Hh & _).
  exists tw, th. split; [exact Hr|]. split; [exact Hw|exact Hh].
Defined.

(** Rounding is visible in the result: a 1122 by 631 source is sent as 1023
    by 575 (the exact quotient would give 1024 by 575), a 2560 by 1440
    source as 1024 by 576. *)
Example frames_of_two_sources :
  target_size (mkVideo false false 1122 631) = (1023, 575) /\
  target_size (mkVideo false false 2560 1440) = (1024, 576).
Proof. split; vm_compute; reflexivity. Qed.

(** ** The volume pulse *)

Lemma foldl_add_bounds (data : list Z) (acc : Z) :
  Forall (fun b => 0 <= b <= 255) data ->
  acc <= foldl Z.add acc data <= acc + 255 * Z.of_nat (length data).
Proof.
  intros Hb. revert acc. induction Hb as [|b data Hb0 _ IH]; intros acc.
  - cbn. lia.
  - cbn [foldl length]. specialize (IH (acc + b)). lia.
Qed.

(** X27. The HUD's pulse stays within its range: for byte samples (each
    between 0 and 255), [avgVolume] is between 0 and 255 and [pulseScale]
    between 1 and 1.3; with no samples the scale is exactly 1. *)
Theorem pulse_scale_in_range (voiceData : list Z) :
  Forall (fun b => 0 <= b <= 255) voiceData ->
  (0 <= avgVolume voiceData <= 255)%Q /\
  (1 <= pulseScale voiceData <= 13 # 10)%Q /\
  (voiceData = [] -> (pulseScale voiceData == 1)%Q).
Proof.
  intros Hb.
  assert (Havg : (0 <= avgVolume voiceData <= 255)%Q).
  { unfold avgVolume.
    destruct (0 <? Z.of_nat (length voiceData)) eqn:Hlen;
      [|split; discriminate].
    apply Z.ltb_lt in Hlen.
    pose proof (foldl_add_bounds voiceData 0 Hb) as [Hlo Hhi].
    pose proof (Z_pos_Q _ Hlen) as Hq.
    split.
    - apply Qle_shift_div_l; [done|]. rewrite Qmult_0_l.
      change 0%Q with (inject_Z 0). by rewrite <- Zle_Qle.
    - apply Qle_shift_div_r; [done|].
      change 255%Q with (inject_Z 255). rewrite <- inject_Z_mult.
      rewrite <- Zle_Qle. lia. }
  split; [done|]. split.
  - unfold pulseScale. destruct Havg as [H0 H1].
    set (a := avgVolume voiceData) in *. clearbody a.
    unfold Qdiv. change (/ 255)%Q with (1 # 255)%Q.
    split; lra.
  - by intros ->.
Qed.

Lemma pulse_scale_in_range_witness :
  (1 <= pulseScale [0; 128; 255]%Z <= 13 # 10)%Q.
Proof.
  apply pulse_scale_in_range. repeat constructor; lia.
Defined.

(** ** Start-up failure *)

Lemma startJarvis_refused E w :
  getDisplayMedia E = None \/ getUserMedia E = None ->
  startJarvis E w
  = (Return tt,
     cleaned (with_sess (fun s =>
       mkSession (isActive s) false
                 (Some (message_or (err_message E) "System uplink failure."))
                 (voiceData s) (screenStream s) (micStreamRef s)
                 (frameIntervalRef s) (sessionPromiseRef s)) w)).
Proof.
  intros Hno. unfold startJarvis, try_catch, acquire.
  rewrite bind_modify, bind_unfold, bind_ask.
  destruct w as [an se au ca hu st ti tr rd].
  destruct (getDisplayMedia E) as [stream|]; simpl.
  - destruct Hno as [|Hmic]; [done|].
    rewrite bind_unfold, bind_ask, Hmic. simpl.
    rewrite bind_ask, bind_modify, cleanup_spec. done.
  - rewrite bind_ask, bind_modify, cleanup_spec. done.
Qed.

Lemma startJarvis_granted E w stream mic :
  getDisplayMedia E = Some stream -> getUserMedia E = Some mic ->
  let w' := exec startJarvis E w in
  micStreamRef (sess w') = Some mic /\ trace w' = trace w.
Proof.
  intros Hd Hm. unfold exec, startJarvis, try_catch, acquire.
  rewrite bind_modify, bind_unfold, bind_ask, Hd.
  destruct w as [an se au ca hu st ti tr rd]. simpl.
  rewrite bind_unfold, bind_ask, Hm. simpl.
  eff_run. done.
Qed.

(** X23. A start that is refused a device (the screen, or the microphone
    after the screen was granted) completes without raising and leaves the
    session neither connecting nor active, with a non-empty error text (the
    platform's message, or the default when that is empty), no screen
    stream, no session and no audio contexts. The only requests it makes are
    those of one teardown of the world it started from: a screen stream
    granted before the microphone was refused is neither kept nor stopped. *)
Theorem refused_start_ends_in_teardown (E : Env) (w : World) :
  getDisplayMedia E = None \/ getUserMedia E = None ->
  let w' := exec startJarvis E w in
  (startJarvis E w).1 = Return tt /\
  isActive (sess w') = false /\ isConnecting (sess w') = false /\
  error (sess w')
    = Some (if String.eqb (err_message E) "" then "System uplink failure."
            else err_message E) /\
  error (sess w') <> Some "" /\
  screenStream (sess w') = None /\
  sessionPromiseRef (sess w') = None /\
  micStreamRef (sess w') = micStreamRef (sess w) /\
  inputAudioCtxRef (audio w') = None /\ outputAudioCtxRef (audio w') = None /\
  trace w' = trace w ++ cleanup_effects w.
Proof.
  intros Hno. unfold exec. rewrite (startJarvis_refused E w Hno).
  destruct w as [an se au ca hu st ti tr rd]. cbn.
  repeat (split; [reflexivity|]).
  split; [|repeat (split; [reflexivity|]); reflexivity].
  unfold message_or. destruct (String.eqb (err_message E) "") eqn:He.
  - discriminate.
  - intros [= Hm]. rewrite Hm in He. discriminate.
Qed.

Lemma refused_start_ends_in_teardown_witness :
  let E := mkEnv 0 (fun _ => None) 0%nat (fun _ => false) (fun _ => 0%N) 0
                 (fun q => q) 1000 1000 (Some (mkStream [1%nat])) None ""
                 10%nat 11%nat 12%nat 13%nat 7 in
  let w' := exec startJarvis E initWorld in
  error (sess w') = Some "System uplink failure." /\ trace w' = [].
Proof.
  intros E w'.
  destruct (refused_start_ends_in_teardown E initWorld)
    as (_ & _ & _ & He & _ & _ & _ & _ & _ & _ & Ht); [by right|].
  split; [exact He|exact Ht].
Defined.

(** ** Which tracks are ever stopped *)

Lemma audio_output_stops E m w t :
  In (TrackStop t) (trace (audio_output m E w).2) -> In (TrackStop t) (trace w).
Proof.
  unfold audio_output, set_nextStartTime. rewrite bind_get.
  destruct (audioData m) as [data|]; [|done].
  destruct (outputAudioCtxRef (audio w)); [|done].
  destruct (outputAnalyserRef (audio w)); [|done].
  destruct (String.eqb data ""); [done|].
  destruct w as [an se au ca hu st ti tr rd].
  eff_run. destruct (decodeAudioData E data); eff_run; [|done].
  rewrite in_app_iff. intros [H|[H|[]]]; [done|discriminate].
Qed.

Lemma tool_handling_stops E m w t :
  In (TrackStop t) (trace (tool_handling m E w).2) -> In (TrackStop t) (trace w).
Proof.
  destruct (tool_handling_frame E m w)
    as (_ & _ & _ & _ & _ & _ & acks & -> & Hacks).
  rewrite in_app_iff. intros [H|H]; [done|].
  rewrite Forall_forall in Hacks. apply list_elem_of_In in H.
  destruct (Hacks _ H).
Qed.

Lemma onmessage_stops E m w :
  sess (exec (onmessage m) E w) = sess w /\
  forall t, In (TrackStop t) (trace (exec (onmessage m) E w)) ->
            In (TrackStop t) (trace w).
Proof.
  unfold exec, onmessage. rewrite bind_unfold.
  destruct (audio_output_frame E m w) as (_ & Hs0 & _).
  pose proof (audio_output_stops E m w) as Ht0.
  destruct (audio_output m E w) as [[[]|] w0]; simpl in *; [|done].
  rewrite bind_unfold.
  destruct (tool_handling_frame E m w0) as (Hs1 & _).
  pose proof (tool_handling_stops E m w0) as Ht1.
  destruct (tool_handling m E w0) as [[[]|] w1]; simpl in *.
  2: { split; [congruence|]. intros t Ht. by apply Ht0, Ht1. }
  rewrite bind_unfold, transcription_handling_spec, interruption_spec.
  destruct w1 as [an se au ca hu st ti tr rd]. simpl in *.
  destruct (interrupted m); simpl; (split; [congruence|]); intros t Ht.
  - apply Ht0, Ht1. apply in_app_iff in Ht as [Ht|Ht]; [done|].
    apply in_map_iff in Ht as (n & Hn & _). discriminate.
  - by apply Ht0, Ht1.
Qed.

Lemma cleaned_stops w t :
  In (TrackStop t) (trace (cleaned w)) ->
  In (TrackStop t) (trace w) \/
  exists mic, micStreamRef (sess w) = Some mic /\ In t (getTracks mic).
Proof.
  simpl. unfold cleanup_effects. rewrite !in_app_iff.
  intros [H|[H|[H|[H|[H|[H|H]]]]]]; [by left|..].
  - destruct (truthy_num _); simpl in H; [|done].
    by destruct H as [H|[]].
  - destruct (micStreamRef (sess w)) as [mic|]; [|done].
    right. exists mic. split; [done|].
    apply in_map_iff in H as (t' & [= ->] & Ht). done.
  - apply in_map_iff in H as (n & Hn & _). discriminate.
  - destruct (inputAudioCtxRef _); simpl in H; [|done].
    by destruct H as [H|[]].
  - destruct (outputAudioCtxRef _); simpl in H; [|done].
    by destruct H as [H|[]].
  - destruct (sessionPromiseRef _); simpl in H; [|done].
    by destruct H as [H|[]].
Qed.

Lemma step_tracks w ev :
  (forall mic, micStreamRef (sess (step w ev)) = Some mic ->
     micStreamRef (sess w) = Some mic \/ acquired_mic ev = getTracks mic) /\
  (forall t, In (TrackStop t) (trace (step w ev)) ->
     In (TrackStop t) (trace w) \/
     exists mic, micStreamRef (sess w) = Some mic /\ In t (getTracks mic)).
Proof.
  destruct ev as [E ev]. unfold step, acquired_mic. cbn [fst snd].
  destruct ev; cbn [handler].
  - destruct (getDisplayMedia E) as [stream|] eqn:Hd;
      [destruct (getUserMedia E) as [mic0|] eqn:Hm|].
    + destruct (startJarvis_granted E w stream mic0 Hd Hm) as [Hmic Htr].
      rewrite Hmic, Htr. split; [|by left].
      intros mic [= ->]. by right.
    + unfold exec. rewrite startJarvis_refused by (by right). cbn [snd].
      split; [destruct w as [an se au ca hu st ti tr rd]; by left|].
      intros t Ht. apply cleaned_stops in Ht.
      by destruct w as [an se au ca hu st ti tr rd].
    + unfold exec. rewrite startJarvis_refused by (by left). cbn [snd].
      split; [destruct w as [an se au ca hu st ti tr rd]; by left|].
      intros t Ht. apply cleaned_stops in Ht.
      by destruct w as [an se au ca hu st ti tr rd].
  - unfold exec, onopen. rewrite bind_ask.
    destruct w as [an se au ca hu st ti tr rd]. split; by left.
  - destruct (onmessage_stops E m w) as [-> Ht].
    split; [by left|]. intros t H. left. by apply Ht.
  - unfold exec, onerror. rewrite bind_ask, bind_modify, cleanup_spec.
    cbn [snd].
    split; [destruct w as [an se au ca hu st ti tr rd]; by left|].
    intros t Ht. apply cleaned_stops in Ht.
    by destruct w as [an se au ca hu st ti tr rd].
  - unfold onclose. rewrite exec_cleanup.
    split; [by left|apply cleaned_stops].
  - rewrite exec_cleanup. split; [by left|apply cleaned_stops].
  - rewrite exec_cleanup. split; [by left|apply cleaned_stops].
  - destruct w as [an se au ca hu st ti tr rd]. split; by left.
  - destruct w as [an se au ca hu st ti tr rd]. split; by left.
  - split; by left.
  - unfold exec. rewrite handleMouseDown_spec. cbn [snd].
    destruct w as [an se au ca hu st ti tr rd].
    destruct (isActive se) eqn:Ha; simpl; rewrite ?Ha; split; by left.
  - unfold exec, handleMouseMove, getNormalizedPos. rewrite bind_get.
    destruct w as [an se au ca hu st ti tr rd].
    destruct (isDrawing _); [|split; by left].
    destruct (startPoint _); eff_run; split; by left.
  - unfold exec, handleMouseUp. rewrite bind_get.
    destruct w as [an se au ca hu st ti tr rd].
    destruct (isDrawing _); [|split; by left].
    destruct (previewDrawing _); [|split; by left].
    rewrite bind_DateNow. cbn [ann with_reads].
    destruct (drawings an); unfold do_updateDrawings; eff_run;
      split; by left.
  - unfold exec, onended.
    destruct w as [an se au ca hu st ti tr rd]. split; by left.
  - unfold exec, run_timeout, clear_callback. rewrite bind_ask, bind_get.
    destruct w as [an se au ca hu st ti tr rd].
    destruct (take_due _ _); eff_run; split; by left.
Qed.

Lemma mic_tracks_snoc evs ev :
  mic_tracks (evs ++ [ev]) = mic_tracks evs ++ acquired_mic ev.
Proof.
  unfold mic_tracks. rewrite map_app, concat_app. simpl.
  by rewrite app_nil_r.
Qed.

Lemma run_tracks (evs : list (Env * Event)) :
  let w := run evs initWorld in
  (forall mic t, micStreamRef (sess w) = Some mic -> In t (getTracks mic) ->
     In t (mic_tracks evs)) /\
  (forall t, In (TrackStop t) (trace w) -> In t (mic_tracks evs)).
Proof.
  unfold run. induction evs as [|ev evs [IHm IHt]] using rev_ind.
  - split; [done|]. intros t [].
  - rewrite foldl_app. cbn [foldl]. rewrite mic_tracks_snoc.
    destruct (step_tracks (foldl step initWorld evs) ev) as [Hm Ht].
    split.
    + intros mic t Hmic Hin. apply in_app_iff.
      destruct (Hm mic Hmic) as [Hold| ->]; [left; by eapply IHm|by right].
    + intros t Hin. apply in_app_iff. left.
      destruct (Ht t Hin) as [Hold|(mic & Hmic & Hmem)];
        [by apply IHt|by eapply IHm].
Qed.

(** X29. Whatever the events (starts, opens, messages, errors, closes,
    teardowns, pointer and history actions, in any order), every track the
    program ever stops is a track of a microphone stream that one of its
    starts acquired. A track of the captured screen that is not also a
    microphone track is therefore never stopped by the program. *)
Theorem only_microphone_tracks_are_stopped
    (evs : list (Env * Event)) (t : Track) :
  In (TrackStop t) (trace (run evs initWorld)) -> In t (mic_tracks evs).
Proof. apply run_tracks. Qed.

Lemma only_microphone_tracks_are_stopped_witness :
  let evs := [(demoEnv, EvActivate); (demoEnv, EvOpen);
              (demoEnv, EvDeactivate)] in
  In (TrackStop 2%nat) (trace (run evs initWorld)) /\
  In 2%nat (mic_tracks evs) /\
  ~ In (TrackStop 1%nat) (trace (run evs initWorld)).
Proof.
  intros evs.
  assert (H2 : In (TrackStop 2%nat) (trace (run evs initWorld))).
  { vm_compute. tauto. }
  split; [exact H2|]. split.
  - exact (only_microphone_tracks_are_stopped evs 2%nat H2).
  - intros H1. apply only_microphone_tracks_are_stopped in H1.
    vm_compute in H1. destruct H1 as [H1|[]]. discriminate.
Defined.

(** ** Captions over a run *)

Lemma string_app_assoc (a b c : string) : (a +:+ b) +:+ c = a +:+ (b +:+ c).
Proof.
  induction a as [|x a IH]; [done|].
  change (String x ((a +:+ b) +:+ c) = String x (a +:+ b +:+ c)).
  by f_equal.
Qed.

Lemma string_app_nil_r (a : string) : a +:+ "" = a.
Proof.
  induction a as [|x a IH]; [done|].
  change (String x (a +:+ "") = String x a). by f_equal.
Qed.

Lemma onmessage_cap E m w :
  cap (exec (onmessage m) E w) = cap w \/
  cap (exec (onmessage m) E w) = captions_after m (cap w).
Proof.
  unfold exec, onmessage. rewrite bind_unfold.
  destruct (audio_output_frame E m w) as (_ & _ & Hc0 & _).
  destruct (audio_output m E w) as [[[]|] w0]; simpl in *; [|by left].
  rewrite bind_unfold.
  destruct (tool_handling_frame E m w0) as (_ & _ & Hc1 & _).
  destruct (tool_handling m E w0) as [[[]|] w1]; simpl in *;
    [|left; congruence].
  rewrite bind_unfold, transcription_handling_spec, interruption_spec.
  right. destruct w1 as [an se au ca hu st ti tr rd]. simpl in *.
  destruct (interrupted m); simpl; congruence.
Qed.

Lemma captions_after_mirrored m c :
  mirrored c -> mirrored (captions_after m c).
Proof.
  unfold mirrored, captions_after. intros Hc.
  destruct (inputTranscription m), (outputTranscription m); done.
Qed.

Lemma captions_after_ref m c :
  transcriptionRef (captions_after m c)
  = mkTranscript
      (match inputTranscription m with
       | Some txt => user (transcriptionRef c) +:+ default "undefined" txt
       | None => user (transcriptionRef c)
       end)
      (match outputTranscription m with
       | Some txt => ai (transcriptionRef c) +:+ default "undefined" txt
       | None => ai (transcriptionRef c)
       end).
Proof.
  unfold captions_after, js_append.
  destruct (inputTranscription m), (outputTranscription m); simpl;
    try done; by destruct (transcriptionRef c).
Qed.

Lemma step_mirrored w ev : mirrored (cap w) -> mirrored (cap (step w ev)).
Proof.
  destruct ev as [E ev]. unfold step. cbn [fst snd]. intros Hm.
  destruct ev; cbn [handler].
  - unfold exec, startJarvis, try_catch, acquire.
    rewrite bind_modify, bind_unfold, bind_ask.
    destruct w as [an se au ca hu st ti tr rd].
    destruct (getDisplayMedia E); simpl.
    + rewrite bind_unfold, bind_ask.
      destruct (getUserMedia E); simpl; [by eff_run|].
      rewrite bind_ask, bind_modify, cleanup_spec. done.
    + rewrite bind_ask, bind_modify, cleanup_spec. done.
  - unfold exec, onopen. rewrite bind_ask.
    by destruct w as [an se au ca hu st ti tr rd].
  - destruct (onmessage_cap E m w) as [-> | ->];
      [done|by apply captions_after_mirrored].
  - unfold exec, onerror. rewrite bind_ask, bind_modify, cleanup_spec.
    by destruct w as [an se au ca hu st ti tr rd].
  - unfold onclose. by rewrite exec_cleanup.
  - by rewrite exec_cleanup.
  - by rewrite exec_cleanup.
  - by destruct w as [an se au ca hu st ti tr rd].
  - by destruct w as [an se au ca hu st ti tr rd].
  - done.
  - unfold exec. rewrite handleMouseDown_spec. cbn [snd].
    destruct w as [an se au ca hu st ti tr rd].
    by destruct (isActive _).
  - unfold exec, handleMouseMove, getNormalizedPos. rewrite bind_get.
    destruct w as [an se au ca hu st ti tr rd].
    destruct (isDrawing _); [|done].
    destruct (startPoint _); eff_run; done.
  - unfold exec, handleMouseUp. rewrite bind_get.
    destruct w as [an se au ca hu st ti tr rd].
    destruct (isDrawing _); [|done].
    destruct (previewDrawing _); [|done].
    rewrite bind_DateNow. cbn [ann with_reads].
    destruct (drawings an); unfold do_updateDrawings; eff_run; done.
  - unfold exec, onended. by destruct w as [an se au ca hu st ti tr rd].
  - unfold exec, run_timeout, clear_callback. rewrite bind_ask, bind_get.
    destruct w as [an se au ca hu st ti tr rd].
    destruct (take_due _ _); eff_run; done.
Qed.

(** X25. In every world the events can reach, the caption state equals
    the caption ref it mirrors: text that arrives, the delayed clearing and
    teardown never let the two drift apart. *)
Theorem captions_mirror_their_ref (evs : list (Env * Event)) :
  mirrored (cap (run evs initWorld)).
Proof.
  unfold run. induction evs as [|ev evs IH] using rev_ind.
  - reflexivity.
  - rewrite foldl_app. simpl. by apply step_mirrored.
Qed.

Lemma onmessage_text_only E m w :
  audioData m = None -> toolCall m = None ->
  cap (exec (onmessage m) E w) = captions_after m (cap w).
Proof.
  intros Ha Ht. unfold exec, onmessage.
  rewrite bind_unfold, audio_output_none by done. cbn match.
  rewrite bind_unfold, tool_handling_none by done. cbn match.
  rewrite bind_unfold, transcription_handling_spec, interruption_spec.
  destruct w as [an se au ca hu st ti tr rd]. simpl.
  by destruct (interrupted m).
Qed.

(** X30. Messages without audio or tool calls only ever add to the two
    caption buffers: after any number of them, the user buffer is what it
    was followed by every input text in arrival order, and the assistant
    buffer is what it was followed by every output text in arrival order
    (a transcription without text adds the word undefined). Neither a
    turn-complete nor an interruption flag in those messages shortens
    them. *)
Theorem captions_accumulate_in_order
    (w : World) (chunks : list (Env * Message)) :
  Forall (fun c => audioData c.2 = None /\ toolCall c.2 = None) chunks ->
  transcriptionRef (cap (run (messages chunks) w))
  = mkTranscript
      (user (transcriptionRef (cap w)) +:+ said inputTranscription chunks)
      (ai (transcriptionRef (cap w)) +:+ said outputTranscription chunks).
Proof.
  intros Hc. revert w. unfold run.
  induction Hc as [|[E m] chunks [Ha Ht] _ IH]; intros w.
  - simpl. rewrite !string_app_nil_r. by destruct (transcriptionRef (cap w)).
  - cbn [messages map foldl fst snd] in *. rewrite IH.
    unfold step. cbn [fst snd handler].
    rewrite onmessage_text_only, captions_after_ref by done.
    cbn [user ai said foldr snd].
    destruct (inputTranscription m), (outputTranscription m);
      by rewrite ?string_app_assoc.
Qed.

Lemma captions_accumulate_in_order_witness :
  let chunks :=
    [(demoEnv, mkMessage None None (Some (Some "mark ")) None false false);
     (demoEnv, mkMessage None None None (Some (Some "Done, ")) true false);
     (demoEnv, mkMessage None None (Some (Some "this")) (Some (Some "Sir."))
                         false true)] in
  transcriptionRef (cap (run (messages chunks) initWorld))
  = mkTranscript "mark this" "Done, Sir.".
Proof.
  intros chunks.
  rewrite (captions_accumulate_in_order initWorld chunks).
  - reflexivity.
  - repeat constructor.
Defined.
